(** * Scheduled publishing pipeline: token store, retry policy, publish
      session and polling scheduler.

    A shallow embedding of the TypeScript/JavaScript sources
    [src/lib/token-manager.ts], [src/lib/facebook-automation.ts],
    [scripts/facebook-automation.js] and [src/lib/post-scheduler.ts].

    Asynchronous methods are embedded in a state-and-exception monad with an
    event log: a computation takes the current world, and yields either a
    value or a thrown JavaScript value, the next world, and the externally
    visible events it produced (log lines, timer sleeps, calls made on
    external collaborators).  JavaScript numbers that hold times and
    counters are integers ([Z], [nat]). *)

From stdpp Require Import gmap strings list fin_maps pretty.
From Stdlib Require Import ZArith Lia.

Local Open Scope Z_scope.
Local Open Scope string_scope.

(* ===================================================================== *)
(** * Effects *)
(* ===================================================================== *)

Module Eff.

(** A thrown JavaScript value: an [Error] object carrying its [message];
    [null] or [undefined]; or any other value.  For the last two kinds
    [instanceof Error] is false.  Reading a property of [null] or of
    [undefined] throws a [TypeError]; on every other value the read
    returns. *)
Inductive thrown : Type :=
| ErrorObj (message : string)
| NonError (descr : string)
| Nullish (undefined : bool).

Inductive outcome (A : Type) : Type :=
| Ret (a : A)
| Throw (e : thrown).
Arguments Ret {A} a.
Arguments Throw {A} e.

Inductive level : Type := LInfo | LWarn | LError.

(** Calls on external collaborators (browser page, file system, network,
    post store, publishing surface). *)
Inductive ext_call : Type :=
| CGoto (url : string)
| CQuery (selector : string)                 (* page.$(selector) *)
| CClick (selector : string)
| CWaitForSelector (selector : string)
| CType (selector text : string)
| CWaitForNavigation
| CNavigateToPage (pageId : string)
| CFetch (url : string)
| CWriteFile (path : string)
| CUploadFile (path : string)
| CUnlink (path : string)
| CBrowserClose
| CSelectDue (now : Z)                       (* posts: status = scheduled, scheduled_for <= now *)
| CUpdatePublished (postId : string)
| CUpdateFailed (postId : string) (error : string)
| CInsertAnalytics (postId : string)
| CPublishPost (postId : string).

Inductive event : Type :=
| EvLog (lvl : level) (msg : string)
| EvSleep (ms : Z)                           (* await new Promise(r => setTimeout(r, ms)) *)
| EvSetInterval (ms : Z)
| EvCall (c : ext_call).

Record res (W A : Type) : Type :=
  Res { val : outcome A; st : W; evs : list event }.
Arguments Res {W A} val st evs.
Arguments val {W A} r.
Arguments st {W A} r.
Arguments evs {W A} r.

Definition M (W A : Type) : Type := W -> res W A.

Definition ret {W A} (a : A) : M W A := fun w => Res (Ret a) w [].
Definition throw {W A} (e : thrown) : M W A := fun w => Res (Throw e) w [].

Definition bind {W A B} (m : M W A) (k : A -> M W B) : M W B :=
  fun w =>
    match m w with
    | Res (Ret a) w1 es1 =>
        match k a w1 with
        | Res v w2 es2 => Res v w2 (es1 ++ es2)
        end
    | Res (Throw e) w1 es1 => Res (Throw e) w1 es1
    end.

(** [try { m } catch (error) { h error }] *)
Definition try_catch {W A} (m : M W A) (h : thrown -> M W A) : M W A :=
  fun w =>
    match m w with
    | Res (Ret a) w1 es1 => Res (Ret a) w1 es1
    | Res (Throw e) w1 es1 =>
        match h e w1 with
        | Res v w2 es2 => Res v w2 (es1 ++ es2)
        end
    end.

Definition emit {W} (e : event) : M W unit := fun w => Res (Ret tt) w [e].
Definition get {W} : M W W := fun w => Res (Ret w) w [].
Definition modify {W} (f : W -> W) : M W unit := fun w => Res (Ret tt) (f w) [].

Definition log {W} (lvl : level) (msg : string) : M W unit := emit (EvLog lvl msg).
Definition sleep {W} (ms : Z) : M W unit := emit (EvSleep ms).

(** [error instanceof Error ? error.message : 'Unknown error'] *)
Definition message_of (e : thrown) : string :=
  match e with
  | ErrorObj m => m
  | NonError _ | Nullish _ => "Unknown error"
  end.

Definition is_throw {A} (o : outcome A) : bool :=
  match o with Throw _ => true | Ret _ => false end.

Definition calls (l : list event) : list ext_call :=
  omap (fun e => match e with EvCall c => Some c | _ => None end) l.

Definition sleeps (l : list event) : list Z :=
  omap (fun e => match e with EvSleep ms => Some ms | _ => None end) l.

End Eff.

Import Eff.

Declare Scope eff_scope.
Delimit Scope eff_scope with eff.
Notation "x <- c1 ;; c2" := (bind c1 (fun x => c2))
  (at level 100, c1 at next level, right associativity) : eff_scope.
Notation "c1 ;; c2" := (bind c1 (fun _ => c2))
  (at level 100, right associativity) : eff_scope.
Local Open Scope eff_scope.

(* ===================================================================== *)
(** * TokenManager  (src/lib/token-manager.ts) *)
(* ===================================================================== *)

Module TokenManager.

(** [{ token: string; expiresAt: number }] *)
Record TokenInfo : Type := { token : string; expiresAt : Z }.

(** The string kept under the key ['fb_tokens'] of [localStorage],
    described by what the code's reads do with it:
    - [BEmpty]: the empty string (falsy, so [if (savedTokens)] skips it);
    - [BCorrupt]: a non-empty string on which [JSON.parse] throws;
    - [BNull]: the text [null], which parses, after which
      [Object.entries(null)] throws a [TypeError];
    - [BDoc m]: the JSON document of an object whose own properties are
      the page ids of [m], each holding [{token, expiresAt}];
      [JSON.stringify(Object.fromEntries(tokens.entries()))] produces
      such a document and [JSON.parse] reads it back.
    The entries are read with the unchecked cast
    [value as { token: string; expiresAt: number }].  This module is the
    manager on stores of the declared type; what the load does with every
    other stored text is in [PersistedCache] below. *)
Inductive blob : Type :=
| BEmpty
| BCorrupt (text : string)
| BNull
| BDoc (m : gmap string TokenInfo).

(** The browser's [localStorage] of a manager that exists: the item under
    ['fb_tokens'], and whether [setItem] currently throws (quota
    exceeded).  The constructor has returned, so the storage can be
    accessed, and as in the Web Storage interface [getItem] and
    [removeItem] do not throw.  A storage that cannot be accessed at
    construction is in [PersistedCache]. *)
Record Storage : Type := { fb_tokens : option blob; setItem_fails : bool }.

(** The singleton's state: [this.tokens] and the storage it persists to. *)
Record TM : Type := { tokens : gmap string TokenInfo; storage : Storage }.

Definition set_tokens (t : gmap string TokenInfo) (w : TM) : TM :=
  {| tokens := t; storage := storage w |}.
Definition set_item (i : option blob) (w : TM) : TM :=
  {| tokens := tokens w;
     storage := {| fb_tokens := i; setItem_fails := setItem_fails (storage w) |} |}.

(** [localStorage.getItem('fb_tokens')] *)
Definition getItem : M TM (option blob) :=
  w <- get ;; ret (fb_tokens (storage w)).

(** [localStorage.setItem('fb_tokens', b)] *)
Definition setItem (b : blob) : M TM unit :=
  w <- get ;;
  if setItem_fails (storage w)
  then throw (ErrorObj "QuotaExceededError")
  else modify (set_item (Some b)).

(** [localStorage.removeItem('fb_tokens')] *)
Definition removeItem : M TM unit := modify (set_item None).

(** What [JSON.parse] yields on a stored string. *)
Inductive parsed : Type :=
| PNull
| PObj (m : gmap string TokenInfo).

Definition JSON_parse (b : blob) : M TM parsed :=
  match b with
  | BEmpty => throw (ErrorObj "Unexpected end of JSON input")
  | BCorrupt _ => throw (ErrorObj "Unexpected token in JSON")
  | BNull => ret PNull
  | BDoc m => ret (PObj m)
  end.

Definition Object_entries (p : parsed) : M TM (list (string * TokenInfo)) :=
  match p with
  | PNull => throw (ErrorObj "Cannot convert undefined or null to object")
  | PObj m => ret (map_to_list m)
  end.

(** [if (savedTokens)]: [null] and the empty string are falsy. *)
Definition truthy (i : option blob) : option blob :=
  match i with
  | None | Some BEmpty => None
  | Some b => Some b
  end.

(** [entries.forEach(([key, value]) => this.tokens.set(key, value))] *)
Definition set_all (entries : list (string * TokenInfo)) : M TM unit :=
  modify (fun w =>
    set_tokens (foldl (fun t kv => <[kv.1 := kv.2]> t) (tokens w) entries) w).

Definition loadTokens : M TM unit :=
  try_catch
    (savedTokens <- getItem ;;
     match truthy savedTokens with
     | Some b =>
         p <- JSON_parse b ;;
         entries <- Object_entries p ;;
         set_all entries
     | None => ret tt
     end)
    (fun error =>
       log LError "Failed to load saved tokens:" ;;
       removeItem).

Definition saveTokens : M TM unit :=
  try_catch
    (w <- get ;; setItem (BDoc (tokens w)))
    (fun error => log LError "Failed to save tokens:").

(** [setToken(pageId, token, expiresIn)], called when [Date.now()] is
    [now]. *)
Definition setToken (now : Z) (pageId tok : string) (expiresIn : Z) : M TM unit :=
  modify (fun w =>
    set_tokens (<[pageId := {| token := tok; expiresAt := now + expiresIn * 1000 |}]>
                  (tokens w)) w) ;;
  saveTokens.

(** [getToken(pageId)], called when [Date.now()] is [now]; [None] is
    [null]. *)
Definition getToken (now : Z) (pageId : string) : M TM (option string) :=
  w <- get ;;
  match tokens w !! pageId with
  | None => ret None
  | Some tokenInfo =>
      if Z.geb now (expiresAt tokenInfo)
      then
        modify (fun w => set_tokens (delete pageId (tokens w)) w) ;;
        saveTokens ;;
        ret None
      else ret (Some (token tokenInfo))
  end.

Definition clearTokens : M TM unit :=
  modify (set_tokens ∅) ;;
  removeItem.

(** [new TokenManager()]: the field initialiser, then the constructor
    body. *)
Definition construct (s : Storage) : res TM unit :=
  loadTokens {| tokens := ∅; storage := s |}.

(** The environment filling the storage quota: later [setItem] calls
    throw. *)
Definition quota_exhausted (w : TM) : TM :=
  {| tokens := tokens w;
     storage := {| fb_tokens := fb_tokens (storage w); setItem_fails := true |} |}.

(** The persisted copy of the credential set, as a later load sees it. *)
Definition persisted (w : TM) : gmap string TokenInfo :=
  match fb_tokens (storage w) with
  | Some (BDoc m) => m
  | _ => ∅
  end.

End TokenManager.

(* ===================================================================== *)
(** * The persisted cache as the runtime loads it *)
(* ===================================================================== *)

(** [loadTokens] on whatever text the storage holds.  At run time the cast
    [value as { token: string; expiresAt: number }] checks nothing, so the
    map holds the values of the parsed text as they are. *)
Module PersistedCache.

(** A value as [JSON.parse] returns it; numbers are integers. *)
#[warnings="-register-all"]
Inductive json : Type :=
| JNull
| JBool (b : bool)
| JNum (n : Z)
| JStr (s : string)
| JArr (items : list json)
| JObj (members : gmap string json).

(** The string kept under the key ['fb_tokens'], described by what
    [JSON.parse] does with it: the empty string; a non-empty string on
    which [JSON.parse] throws; a string that it reads as the value [v]. *)
Inductive item : Type :=
| Empty
| Unparsable (text : string)
| Json (v : json).

(** [localStorage] as the constructor finds it: the item under
    ['fb_tokens'], and the error that every access to the storage throws
    when the storage cannot be used (a [SecurityError] where the browser
    blocks it, a [ReferenceError] where there is no [localStorage]). *)
Record Storage : Type := { fb_tokens : option item; blocked : option thrown }.

(** [this.tokens] as it is at run time, and the storage. *)
Record TM : Type := { tokens : gmap string json; storage : Storage }.

Definition set_tokens (t : gmap string json) (w : TM) : TM :=
  {| tokens := t; storage := storage w |}.
Definition set_item (i : option item) (w : TM) : TM :=
  {| tokens := tokens w;
     storage := {| fb_tokens := i; blocked := blocked (storage w) |} |}.

(** Evaluating [localStorage.] *)
Definition access : M TM unit :=
  w <- get ;;
  match blocked (storage w) with
  | Some e => throw e
  | None => ret tt
  end.

(** [localStorage.getItem('fb_tokens')] *)
Definition getItem : M TM (option item) :=
  access ;; w <- get ;; ret (fb_tokens (storage w)).

(** [localStorage.removeItem('fb_tokens')] *)
Definition removeItem : M TM unit :=
  access ;; modify (set_item None).

Definition JSON_parse (i : item) : M TM json :=
  match i with
  | Empty => throw (ErrorObj "Unexpected end of JSON input")
  | Unparsable _ => throw (ErrorObj "Unexpected token in JSON")
  | Json v => ret v
  end.

(** The elements of a list under their indices, written in decimal. *)
Definition indexed {A} (l : list A) : list (string * A) :=
  imap (fun i x => (pretty i, x)) l.

(** The characters of a string, each one as a string (a character of the
    model stands for a code unit of the JavaScript string). *)
Definition chars (s : string) : list string :=
  (fun c => String c "") <$> String.list_ascii_of_string s.

(** The own enumerable string-keyed properties of a value other than
    [null]: none for a boolean or a number, the characters of a string and
    the elements of an array under their indices, the members of an
    object. *)
Definition entries (v : json) : list (string * json) :=
  match v with
  | JNull | JBool _ | JNum _ => []
  | JStr s => indexed (JStr <$> chars s)
  | JArr items => indexed items
  | JObj members => map_to_list members
  end.

(** [Object.entries(parsed)]: a [TypeError] on [null]. *)
Definition Object_entries (v : json) : M TM (list (string * json)) :=
  match v with
  | JNull => throw (ErrorObj "Cannot convert undefined or null to object")
  | _ => ret (entries v)
  end.

(** [if (savedTokens)]: [null] and the empty string are falsy. *)
Definition truthy (i : option item) : option item :=
  match i with
  | None | Some Empty => None
  | Some b => Some b
  end.

(** [entries.forEach(([key, value]) => this.tokens.set(key, value))] *)
Definition set_all (l : list (string * json)) : M TM unit :=
  modify (fun w =>
    set_tokens (foldl (fun t kv => <[kv.1 := kv.2]> t) (tokens w) l) w).

Definition loadTokens : M TM unit :=
  try_catch
    (savedTokens <- getItem ;;
     match truthy savedTokens with
     | Some b =>
         parsed <- JSON_parse b ;;
         l <- Object_entries parsed ;;
         set_all l
     | None => ret tt
     end)
    (fun error =>
       log LError "Failed to load saved tokens:" ;;
       removeItem).

(** [new TokenManager()]: the field initialiser, then the constructor
    body. *)
Definition construct (s : Storage) : res TM unit :=
  loadTokens {| tokens := ∅; storage := s |}.

(** ** Stores of the declared type among all stores *)

(** The object [{ token, expiresAt }]. *)
Definition info (i : TokenManager.TokenInfo) : json :=
  JObj {[ "token" := JStr (TokenManager.token i);
          "expiresAt" := JNum (TokenManager.expiresAt i) ]}.

Definition document (b : TokenManager.blob) : item :=
  match b with
  | TokenManager.BEmpty => Empty
  | TokenManager.BCorrupt text => Unparsable text
  | TokenManager.BNull => Json JNull
  | TokenManager.BDoc m => Json (JObj (info <$> m))
  end.

(** A storage of [TokenManager], which can be used. *)
Definition usable (s : TokenManager.Storage) : Storage :=
  {| fb_tokens := document <$> TokenManager.fb_tokens s; blocked := None |}.

End PersistedCache.

(* ===================================================================== *)
(** * RetryPolicy  (FacebookAutomation.retry) *)
(* ===================================================================== *)

Module Retry.

(** [CONFIG.retryAttempts], [CONFIG.retryDelay] (and the fields
    [this.retryAttempts], [this.retryDelay] of the script). *)
Definition retryAttempts : nat := 3.
Definition retryDelay : Z := 5000.

Section Loop.
Context {W T : Type}.
Variable after_loop : M W T.   (* the statement that follows the loop *)
Variable fn : M W T.
Variable attempts : nat.

(** [for (let i = 0; i < attempts; i++) { try { return await fn(); }
    catch (error) { if (i === attempts - 1) throw error; warn; sleep } }]
    with [k] the iterations left when the counter is [i]. *)
Fixpoint loop (k i : nat) : M W T :=
  match k with
  | O => after_loop
  | S k' =>
      try_catch fn (fun error =>
        if Nat.eqb i (attempts - 1) then throw error
        else
          log LWarn ("Attempt " +:+ pretty (i + 1)%nat +:+ " failed, retrying...") ;;
          sleep retryDelay ;;
          loop k' (S i))
  end.
End Loop.

(** src/lib/facebook-automation.ts: [retry<T>(fn, attempts)]. *)
Definition retry {W T} (fn : M W T) (attempts : nat) : M W T :=
  loop (throw (ErrorObj "Retry failed")) fn attempts attempts 0%nat.

(** The operation with a record of its invocations: every call appends
    its outcome to a history kept beside the operation's own state. *)
Definition recorded {W T} (op : W -> outcome T * W) : M (W * list (outcome T)) T :=
  fun wh =>
    let '(o, w') := op wh.1 in
    Res o (w', (wh.2 ++ [o])%list) [].

End Retry.

(* ===================================================================== *)
(** * The browser session the automation drives *)
(* ===================================================================== *)

Module Browser.

(** The external surface during one run: which selectors match on the
    current document, which external calls reject (and with what), the
    process working directory, [Date.now()] and date-fns [format]. *)
Record Env : Type := {
  dom : string -> bool;
  fails : ext_call -> option thrown;
  cwd : string;
  now : Z;
  format : Z -> string -> string
}.

(** [this.browser], [this.page], [this.isLoggedIn] ([true]: not null),
    and the files present on the local disk. *)
Record Session : Type := {
  browser : bool;
  page : bool;
  isLoggedIn : bool;
  files : gset string
}.

Definition set_files (f : gset string) (s : Session) : Session :=
  {| browser := browser s; page := page s; isLoggedIn := isLoggedIn s; files := f |}.

(** A computation keeps the session when it changes none of [browser],
    [page], [isLoggedIn] and never closes the browser. *)
Definition keeps_session {A} (m : M Session A) : Prop :=
  ∀ s, browser (st (m s)) = browser s ∧ page (st (m s)) = page s ∧
       isLoggedIn (st (m s)) = isLoggedIn s ∧ CBrowserClose ∉ calls (evs (m s)).

(** A computation that follows the script [l]: on every exit path the
    calls it has made are the first calls of [l], in order, and when it
    returns it has made all of them. *)
Definition runs_through {A} (l : list ext_call) (m : M Session A) : Prop :=
  ∀ s, calls (evs (m s)) `prefix_of` l ∧
       (is_throw (val (m s)) = false → calls (evs (m s)) = l).

Section Calls.
Variable env : Env.

(** An awaited call on an external collaborator. *)
Definition call (c : ext_call) : M Session unit :=
  emit (EvCall c) ;;
  match fails env c with
  | Some e => throw e
  | None => ret tt
  end.

(** A method call on [this.page]; on [null] it is a [TypeError]. *)
Definition page_call (c : ext_call) : M Session unit :=
  s <- get ;;
  if page s then call c
  else throw (ErrorObj "Cannot read properties of null").

(** [await this.page.$(selector)]: is there a matching element. *)
Definition query (selector : string) : M Session bool :=
  page_call (CQuery selector) ;; ret (dom env selector).

(** [fs.writeFile(path, ...)], [fs.unlink(path)]. *)
Definition writeFile (path : string) : M Session unit :=
  call (CWriteFile path) ;;
  modify (fun s => set_files ({[path]} ∪ files s) s).

Definition unlink (path : string) : M Session unit :=
  call (CUnlink path) ;;
  s <- get ;;
  if decide (path ∈ files s)
  then modify (fun s => set_files (files s ∖ {[path]}) s)
  else throw (ErrorObj "ENOENT: no such file or directory").
End Calls.

End Browser.

(* ===================================================================== *)
(** * FacebookAutomation  (src/lib/facebook-automation.ts) *)
(* ===================================================================== *)

Module Automation.
Import Browser.

(** [CONFIG.selectors.post]; the quotation marks inside the attribute
    selectors are left out. *)
Definition sel_composer := "[data-testid=page_composer_button]".
Definition sel_textArea := "[data-testid=status-attachment-mentions-input]".
Definition sel_imageUpload := "input[type=file]".
Definition sel_scheduleButton := "[data-testid=schedule-post-button]".
Definition sel_dateInput := "[data-testid=scheduled-date-input]".
Definition sel_timeInput := "[data-testid=scheduled-time-input]".
Definition sel_publishButton := "[data-testid=post-button]".

Record PostOptions : Type := {
  content : string;
  imageUrl : option string;
  scheduledTime : option Z;
  firstComment : option string
}.

(** An optional string used as a condition: [undefined] and the empty
    string are falsy. *)
Definition given (o : option string) : option string :=
  match o with
  | Some s => if String.eqb s "" then None else Some s
  | None => None
  end.

(** [path.join(process.cwd(), 'temp', `image-${Date.now()}.jpg`)] *)
Definition tempPath (env : Env) : string :=
  cwd env +:+ "/temp/image-" +:+ pretty (now env) +:+ ".jpg".

Section Methods.
Variable env : Env.

Definition require_page : M Session unit :=
  s <- get ;;
  if page s then ret tt else throw (ErrorObj "Browser page not initialized").

Definition typeWithDelay (selector text : string) : M Session unit :=
  require_page ;;
  page_call env (CType selector text).

Definition uploadImage (imageUrl : string) : M Session unit :=
  require_page ;;
  try_catch
    (fileInput <- query env sel_imageUpload ;;
     (if fileInput : bool then ret tt
      else throw (ErrorObj "Image upload input not found")) ;;
     (* Download image to temp directory *)
     call env (CFetch imageUrl) ;;
     writeFile env (tempPath env) ;;
     (* Upload image *)
     call env (CUploadFile (tempPath env)) ;;
     (* Clean up temp file *)
     unlink env (tempPath env))
    (fun error =>
       log LError "Failed to upload image" ;;
       throw error).

Definition schedulePost (scheduledTime : Z) : M Session unit :=
  require_page ;;
  try_catch
    (page_call env (CClick sel_scheduleButton) ;;
     page_call env (CType sel_dateInput (format env scheduledTime "yyyy-MM-dd")) ;;
     page_call env (CType sel_timeInput (format env scheduledTime "HH:mm")))
    (fun error =>
       log LError "Failed to schedule post" ;;
       throw error).

(** The body of [addFirstComment] is empty. *)
Definition addFirstComment (pageId comment : string) : M Session unit := ret tt.

(** [this.navigateToPage] has no definition in this class.  The call is
    taken as a call on a collaborator, which goes through or rejects; in
    the class as it is written it always rejects, with the [TypeError]
    'this.navigateToPage is not a function' (the environment
    [Scenario.as_written]). *)
Definition createPost (pageId : string) (options : PostOptions) : M Session unit :=
  try_catch
    (s <- get ;;
     (if isLoggedIn s then ret tt else throw (ErrorObj "Not logged in")) ;;
     require_page ;;
     log LInfo "Creating new post" ;;
     call env (CNavigateToPage pageId) ;;
     page_call env (CClick sel_composer) ;;
     page_call env (CWaitForSelector sel_textArea) ;;
     (* Enter post content *)
     typeWithDelay sel_textArea (content options) ;;
     (* Upload image if provided *)
     match given (imageUrl options) with
     | Some url => uploadImage url
     | None => ret tt
     end ;;
     (* Schedule post if time provided *)
     match scheduledTime options with
     | Some t => schedulePost t
     | None => ret tt
     end ;;
     (* Publish post *)
     page_call env (CClick sel_publishButton) ;;
     page_call env CWaitForNavigation ;;
     (* Add first comment if provided *)
     match given (firstComment options) with
     | Some c => addFirstComment pageId c
     | None => ret tt
     end ;;
     log LInfo "Post created successfully")
    (fun error =>
       log LError "Failed to create post" ;;
       throw error).

Definition cleanup : M Session unit :=
  try_catch
    (s <- get ;;
     if browser s then
       call env CBrowserClose ;;
       modify (fun s => {| browser := false; page := false; isLoggedIn := false;
                           files := files s |}) ;;
       log LInfo "Browser closed successfully"
     else ret tt)
    (fun error =>
       log LError "Failed to cleanup browser" ;;
       throw error).
End Methods.

(** The calls of an upload that runs to its end, in order. *)
Definition upload_calls (env : Env) (url : string) : list ext_call :=
  [CQuery sel_imageUpload; CFetch url; CWriteFile (tempPath env);
   CUploadFile (tempPath env); CUnlink (tempPath env)].

Definition schedule_calls (env : Env) (t : Z) : list ext_call :=
  [CClick sel_scheduleButton;
   CType sel_dateInput (format env t "yyyy-MM-dd");
   CType sel_timeInput (format env t "HH:mm")].

(** The calls of a publish attempt that runs to its end, in order. *)
Definition attempt_calls (env : Env) (pageId : string) (options : PostOptions)
  : list ext_call :=
  [CNavigateToPage pageId; CClick sel_composer; CWaitForSelector sel_textArea;
   CType sel_textArea (content options)] ++
  match given (imageUrl options) with
  | Some url => upload_calls env url
  | None => []
  end ++
  match scheduledTime options with
  | Some t => schedule_calls env t
  | None => []
  end ++
  [CClick sel_publishButton; CWaitForNavigation].

End Automation.

(* ===================================================================== *)
(** * The automation script  (scripts/facebook-automation.js) *)
(* ===================================================================== *)

Module Script.
Import Browser.

(** [rateLimit.delays] *)
Inductive wait_type : Type := navigation | action | typing.
Definition delays (t : wait_type) : Z :=
  match t with navigation => 2000 | action => 1000 | typing => 100 end.
Definition wait (t : wait_type) : M Session unit := sleep (delays t).

(** The selector literals of the script; the quotation marks inside the
    attribute selectors are left out. *)
Definition adminSelectors : list string :=
  [ "[aria-label=Page Settings]";
    "[data-testid=page_admin_panel]";
    "[data-testid=page_composer_button]" ].
Definition sel_cookie := "[data-testid=cookie-policy-manage-dialog]".
Definition sel_cookie_accept := "[data-testid=cookie-policy-manage-dialog-accept-button]".
Definition sel_not_found := "[data-testid=page_not_found_message]".
Definition page_url (pageId : string) : string := "https://www.facebook.com/" +:+ pageId.

(** No element of the current document matches any of the selectors. *)
Definition absent (env : Env) (sels : list string) : Prop :=
  ∀ sel, sel ∈ sels → dom env sel = false.

(** A query for one of the selectors that rejects does so with a value
    other than [null] and [undefined], as the rejections of puppeteer,
    which are [Error] objects, do. *)
Definition rejects_with_values (env : Env) (sels : list string) : Prop :=
  ∀ sel u, sel ∈ sels → fails env (CQuery sel) ≠ Some (Nullish u).

(** [error.message], read in a [catch] block of the script: the script
    reads it with no guard, so on [null] and on [undefined] the read itself
    throws a [TypeError]. *)
Definition read_message (error : thrown) : M Session unit :=
  match error with
  | Nullish u =>
      throw (ErrorObj ("Cannot read properties of " +:+
                       (if u then "undefined" else "null") +:+
                       " (reading 'message')"))
  | _ => ret tt
  end.

Section Methods.
Variable env : Env.

(** [for (let i = 0; i < this.retryAttempts; i++) { try { return await
    fn.apply(context, args); } catch (error) { if (i ===
    this.retryAttempts - 1) throw error; logger.warn(..., { error:
    error.message }); await sleep } }], with [k] the iterations left when
    the counter is [i].  The arguments of the warning are evaluated before
    it is written.  Falling out of the loop returns [undefined]
    ([None]). *)
Fixpoint retry_loop {T} (fn : M Session T) (k i : nat) : M Session (option T) :=
  match k with
  | O => ret None
  | S k' =>
      try_catch (x <- fn ;; ret (Some x)) (fun error =>
        if Nat.eqb i (Retry.retryAttempts - 1) then throw error
        else
          read_message error ;;
          log LWarn ("Attempt " +:+ pretty (i + 1)%nat +:+ " failed, retrying...") ;;
          sleep Retry.retryDelay ;;
          retry_loop fn k' (S i))
  end.

(** [retry(fn, context, ...args)] *)
Definition retry {T} (fn : M Session T) : M Session (option T) :=
  retry_loop fn Retry.retryAttempts 0%nat.

(** [for (const selector of selectors) { if (await page.$(selector))
    return true; } return false;] *)
Fixpoint any_present (selectors : list string) : M Session bool :=
  match selectors with
  | [] => ret false
  | selector :: rest =>
      element <- query env selector ;;
      if element : bool then ret true else any_present rest
  end.

Definition verifyPageAdminAccess : M Session bool :=
  try_catch
    (any_present adminSelectors)
    (fun error =>
       read_message error ;;
       log LError "Failed to verify page admin access" ;;
       ret false).

Definition navigateToPage (pageId : string) : M Session bool :=
  try_catch
    (log LInfo "Navigating to Facebook page" ;;
     page_call env (CGoto (page_url pageId)) ;;
     wait navigation ;;
     (* Handle cookie consent if present *)
     cookieConsent <- query env sel_cookie ;;
     (if cookieConsent : bool then
        page_call env (CClick sel_cookie_accept) ;;
        wait action
      else ret tt) ;;
     (* Verify page access *)
     pageAccessError <- query env sel_not_found ;;
     (if pageAccessError : bool
      then throw (ErrorObj "Page access denied or page not found")
      else ret tt) ;;
     (* Verify admin access *)
     hasAdminAccess <- retry verifyPageAdminAccess ;;
     match hasAdminAccess with
     | Some true =>
         log LInfo "Successfully navigated to Facebook page" ;;
         ret true
     | _ => throw (ErrorObj "No admin access to the page")
     end)
    (fun error =>
       read_message error ;;
       log LError "Failed to navigate to page" ;;
       throw error).
End Methods.

End Script.

(* ===================================================================== *)
(** * PostScheduler  (src/lib/post-scheduler.ts) *)
(* ===================================================================== *)

Module Scheduler.

(** [CREATE TYPE post_status AS ENUM ('draft', 'scheduled', 'published',
    'failed')] *)
Inductive post_status : Type := draft | scheduled | published | failed.

#[global] Instance post_status_eq_dec : EqDecision post_status.
Proof. solve_decision. Defined.

(** A post object as the scheduler handles it: the columns of its row of
    [posts] that the scheduler reads or writes ([scheduled_for] is a
    nullable [timestamptz], times are milliseconds), and its property
    [selectedPages], read when the analytics are initialised.  The table
    has no such column and the due-post query joins [post_pages], so on
    the rows the query returns the property is [undefined] ([None]). *)
Record Post : Type := {
  id : string;
  status : post_status;
  scheduled_for : option Z;
  error : option string;
  updated_at : Z;
  selectedPages : option (list string)
}.

(** How an awaited write on the post store settles: the row change is
    applied; or the promise resolves with an [error] member, which the
    scheduler does not look at; or the promise rejects. *)
Inductive write_result : Type :=
| Applied
| Refused
| Rejected (e : thrown).

(** The collaborators of one run: [facebookAuth.publishPost] (its
    rejection, if any, per post), the error the due-post query comes back
    with, and how each store write settles. *)
Record Env : Type := {
  publishPost_result : Post -> option thrown;
  select_error : option thrown;
  write : ext_call -> write_result
}.

(** The [posts] table, the wall clock, and [this.intervalId]. *)
Record Sched : Type := {
  posts : list Post;
  clock : Z;
  intervalId : option Z
}.

Definition checkInterval : Z := 5 * 60 * 1000.

Definition set_posts (l : list Post) (w : Sched) : Sched :=
  {| posts := l; clock := clock w; intervalId := intervalId w |}.

(** [.eq('status', 'scheduled').lte('scheduled_for', now)] *)
Definition is_due (now : Z) (p : Post) : bool :=
  bool_decide (status p = scheduled) &&
  match scheduled_for p with
  | Some t => Z.leb t now
  | None => false
  end.

Definition mark_published (now : Z) (p : Post) : Post :=
  {| id := id p; status := published; scheduled_for := scheduled_for p;
     error := error p; updated_at := now; selectedPages := selectedPages p |}.

Definition mark_failed (now : Z) (msg : string) (p : Post) : Post :=
  {| id := id p; status := failed; scheduled_for := scheduled_for p;
     error := Some msg; updated_at := now; selectedPages := selectedPages p |}.

(** [.update(change).eq('id', postId)] on the table *)
Definition update_rows (postId : string) (change : Post -> Post) (l : list Post) : list Post :=
  (fun p => if String.eqb (id p) postId then change p else p) <$> l.

Section Methods.
Variable env : Env.

(** The row change a processed post ends with when the store applies
    the writes: published if the publish call resolved, failed with the
    error's message if it rejected. *)
Definition settled_row (post : Post) (now : Z) : Post -> Post :=
  match publishPost_result env post with
  | None => mark_published now
  | Some e => mark_failed now (message_of e)
  end.

(** Every write on the post store is applied. *)
Definition writes_applied : Prop := forall c, write env c = Applied.

(** No write on the post store rejects: each one is applied or resolves
    with an error member. *)
Definition writes_settle : Prop := forall c e, write env c <> Rejected e.

(** An awaited [supabase.from('posts').update(...).eq('id', postId)]. *)
Definition store_update (c : ext_call) (postId : string) (change : Z -> Post -> Post)
  : M Sched unit :=
  emit (EvCall c) ;;
  match write env c with
  | Applied => modify (fun w => set_posts (update_rows postId (change (clock w)) (posts w)) w)
  | Refused => ret tt
  | Rejected e => throw e
  end.

(** [post.selectedPages.map(...)] is evaluated first: on [undefined] it
    throws a [TypeError] inside the [try]; the insert follows only when
    the list is there. *)
Definition initializeAnalytics (post : Post) : M Sched unit :=
  try_catch
    (match selectedPages post with
     | None => throw (ErrorObj "Cannot read properties of undefined (reading 'map')")
     | Some pages => ret tt
     end ;;
     emit (EvCall (CInsertAnalytics (id post))) ;;
     match write env (CInsertAnalytics (id post)) with
     | Rejected e => throw e
     | _ => ret tt
     end)
    (fun error => log LError ("Failed to initialize analytics for post " +:+ id post +:+ ":")).

(** [await facebookAuth.publishPost(post)]: the call is issued, then it
    settles. *)
Definition publishPost_issue (post : Post) : M Sched unit :=
  emit (EvCall (CPublishPost (id post))).

Definition publishPost_settle (post : Post) : M Sched unit :=
  match publishPost_result env post with
  | Some e => throw e
  | None => ret tt
  end.

Definition publishPost (post : Post) : M Sched unit :=
  publishPost_issue post ;; publishPost_settle post.

(** The [catch] block of [processScheduledPost]. *)
Definition on_failure (post : Post) (error : thrown) : M Sched unit :=
  log LError ("Failed to process post " +:+ id post +:+ ":") ;;
  (* Update post status to failed *)
  store_update (CUpdateFailed (id post) (message_of error)) (id post)
               (fun now => mark_failed now (message_of error)).

(** What follows the publish call inside the [try] block. *)
Definition after_publish (post : Post) : M Sched unit :=
  (* Update post status *)
  store_update (CUpdatePublished (id post)) (id post) mark_published ;;
  (* Initialize analytics *)
  initializeAnalytics post.

Definition processScheduledPost (post : Post) : M Sched unit :=
  try_catch
    (publishPost post ;; after_publish post)
    (on_failure post).

(** [for (const post of posts) await this.processScheduledPost(post)] *)
Fixpoint for_each (l : list Post) : M Sched unit :=
  match l with
  | [] => ret tt
  | post :: rest => processScheduledPost post ;; for_each rest
  end.

(** The due-post query: [{ data: posts, error }], then
    [if (error) throw error]. *)
Definition select_due : M Sched (list Post) :=
  w <- get ;;
  emit (EvCall (CSelectDue (clock w))) ;;
  match select_error env with
  | Some e => throw e
  | None => ret (filter (fun p => is_due (clock w) p = true) (posts w))
  end.

Definition on_check_error (error : thrown) : M Sched unit :=
  log LError "Error checking scheduled posts:".

Definition checkScheduledPosts : M Sched unit :=
  try_catch
    (posts <- select_due ;; for_each posts)
    on_check_error.

Definition start : M Sched unit :=
  (* Initial check *)
  checkScheduledPosts ;;
  (* Set up interval *)
  emit (EvSetInterval checkInterval) ;;
  modify (fun w => {| posts := posts w; clock := clock w;
                      intervalId := Some checkInterval |}).

(** ** Ticks that overlap

    [setInterval] calls [checkScheduledPosts] without awaiting the
    previous call, so several calls can be suspended at an [await] at
    once.  A call is a task that moves between its suspension points:
    before the query, between two posts of its loop, and inside
    [publishPost]. *)
Inductive task : Type :=
| TQuery
| TLoop (rest : list Post)
| TPublishing (post : Post) (rest : list Post)
| TDone.

(** The running scheduler: the world, the calls in progress, the events so
    far, and the time at which the interval timer fires next. *)
Record System : Type := {
  world : Sched;
  tasks : list task;
  trace : list event;
  next_fire : Z
}.

Inductive action : Type :=
| Fire                 (* the interval callback runs: a new call begins *)
| Advance (dt : Z)     (* time passes *)
| Run (n : nat).       (* call number [n] runs up to its next await *)

(** The scheduler once [start] has returned: the initial check is over and
    the interval is armed. *)
Definition started (w : Sched) : System :=
  let r := start w in
  {| world := st r; tasks := []; trace := evs r;
     next_fire := clock (st r) + checkInterval |}.

(** The part of [processScheduledPost] that runs once the publish call
    has settled. *)
Definition resume (post : Post) : M Sched unit :=
  try_catch
    (publishPost_settle post ;; after_publish post)
    (on_failure post).

Definition run_task (t : task) (w : Sched) : task * Sched * list event :=
  match t with
  | TQuery =>
      let r := select_due w in
      match val r with
      | Ret l => (TLoop l, st r, evs r)
      | Throw e => let r' := on_check_error e (st r) in
                   (TDone, st r', (evs r ++ evs r')%list)
      end
  | TLoop [] => (TDone, w, [])
  | TLoop (post :: rest) =>
      let r := publishPost_issue post w in
      (TPublishing post rest, st r, evs r)
  | TPublishing post rest =>
      let r := resume post w in
      match val r with
      | Ret _ => (TLoop rest, st r, evs r)
      | Throw e => let r' := on_check_error e (st r) in
                   (TDone, st r', (evs r ++ evs r')%list)
      end
  | TDone => (TDone, w, [])
  end.

Definition step (a : action) (s : System) : System :=
  match a with
  | Fire =>
      match intervalId (world s) with
      | Some interval =>
          if Z.leb (next_fire s) (clock (world s))
          then {| world := world s; tasks := (tasks s ++ [TQuery])%list;
                  trace := trace s; next_fire := next_fire s + interval |}
          else s
      | None => s
      end
  | Advance dt =>
      {| world := {| posts := posts (world s); clock := clock (world s) + dt;
                     intervalId := intervalId (world s) |};
         tasks := tasks s; trace := trace s; next_fire := next_fire s |}
  | Run n =>
      match tasks s !! n with
      | Some t =>
          let '(t', w', es) := run_task t (world s) in
          {| world := w'; tasks := <[n := t']> (tasks s);
             trace := (trace s ++ es)%list; next_fire := next_fire s |}
      | None => s
      end
  end.

Definition run (acts : list action) (s : System) : System :=
  foldl (fun s a => step a s) s acts.

(** A post is mid-publish when some call is suspended inside its
    [publishPost]. *)
Definition mid_publish (postId : string) (s : System) : bool :=
  existsb (fun t => match t with
                    | TPublishing post _ => String.eqb (id post) postId
                    | _ => false
                    end) (tasks s).
End Methods.

(** Rows of the posts handled so far are no longer 'scheduled'. *)
Definition handled (ids : list string) (rows : list Post) : Prop :=
  ∀ q, q ∈ rows → id q ∈ ids → status q ≠ scheduled.

(** A system in which a single call of [checkScheduledPosts] runs. *)
Definition alone (t : task) (w : Sched) (tr : list event) : System :=
  {| world := w; tasks := [t]; trace := tr; next_fire := 0 |}.

(** The publish calls issued in a trace, by post id. *)
Definition dispatched (l : list event) : list string :=
  omap (fun e => match e with EvCall (CPublishPost i) => Some i | _ => None end) l.

(** ** The roll-up the specification describes

    Follows the specification's words, to be compared with
    [processScheduledPost]: one outcome per target page, rolled up into
    the post's status. *)
Inductive PublishOutcome : Type :=
| Published
| RetryableFailure (reason : string)
| TerminalFailure (reason : string).

Definition is_published (o : PublishOutcome) : bool :=
  match o with Published => true | _ => false end.
Definition is_terminal (o : PublishOutcome) : bool :=
  match o with TerminalFailure _ => true | _ => false end.

Definition spec_rollup (outcomes : list PublishOutcome) : post_status :=
  if forallb is_published outcomes then published
  else if existsb is_terminal outcomes then failed
  else scheduled.

End Scheduler.

(* ===================================================================== *)
(** * Sequences of calls on the token manager *)
(* ===================================================================== *)

Module TokenRequests.
Import TokenManager.

(** A call on the singleton's public methods, with the value of
    [Date.now()] at the call. *)
Inductive request : Type :=
| SetToken (now : Z) (pageId tok : string) (expiresIn : Z)
| GetToken (now : Z) (pageId : string)
| ClearTokens.

(** The state the call leaves. *)
Definition serve (c : request) (w : TM) : TM :=
  match c with
  | SetToken now pageId tok expiresIn => st (setToken now pageId tok expiresIn w)
  | GetToken now pageId => st (getToken now pageId w)
  | ClearTokens => st (clearTokens w)
  end.

Definition serve_all (cs : list request) (w : TM) : TM :=
  foldl (fun w c => serve c w) w cs.

(** The persisted copy holds what the map in memory holds. *)
Definition in_sync (w : TM) : Prop := persisted w = tokens w.

End TokenRequests.

(* ===================================================================== *)
(** * What a tick may change in the posts table *)
(* ===================================================================== *)

Module SchedulerRows.
Import Scheduler.

(** How a row may differ after a tick that dispatched the posts [ids]: its
    id, its scheduled time and its pages are kept; it is either unchanged,
    or it belongs to a dispatched post and is now 'published' or
    'failed'. *)
Definition row_step (ids : list string) (q q' : Post) : Prop :=
  id q' = id q ∧ scheduled_for q' = scheduled_for q ∧
  selectedPages q' = selectedPages q ∧
  (q' = q ∨ (id q ∈ ids ∧ (status q' = published ∨ status q' = failed))).

(** The world some time later. *)
Definition later (dt : Z) (w : Sched) : Sched :=
  {| posts := posts w; clock := clock w + dt; intervalId := intervalId w |}.

End SchedulerRows.

(* ===================================================================== *)
(** * The automation's environment check and its use of the disk *)
(* ===================================================================== *)

Module AutomationEnv.
Import Browser Automation.

(** [const requiredVars = ['FACEBOOK_EMAIL', 'FACEBOOK_PASSWORD']] *)
Definition requiredVars : list string := ["FACEBOOK_EMAIL"; "FACEBOOK_PASSWORD"].

(** [!process.env[v]]: the variable is not set, or set to the empty
    string. *)
Definition unset (penv : gmap string string) (v : string) : bool :=
  match penv !! v with
  | Some s => String.eqb s ""
  | None => true
  end.

(** [missing.join(', ')] *)
Fixpoint join (sep : string) (l : list string) : string :=
  match l with
  | [] => ""
  | [x] => x
  | x :: rest => x +:+ sep +:+ join sep rest
  end.

(** [validateEnvironment()], on [process.env]. *)
Definition validateEnvironment {W} (penv : gmap string string) : M W unit :=
  let missing := filter (fun v => unset penv v = true) requiredVars in
  if (0 <? length missing)%nat
  then throw (ErrorObj ("Missing required environment variables: " +:+ join ", " missing))
  else ret tt.

(** Calls that read the network for a file or touch the local disk. *)
Definition is_file_call (c : ext_call) : bool :=
  match c with
  | CFetch _ | CWriteFile _ | CUploadFile _ | CUnlink _ => true
  | _ => false
  end.

(** A computation that leaves every file other than [path] as it was. *)
Definition touches_only {A} (path : string) (m : M Session A) : Prop :=
  ∀ s, files (st (m s)) ∖ {[path]} = files s ∖ {[path]}.

(** A computation that leaves the disk as it was and makes no file call. *)
Definition leaves_disk {A} (m : M Session A) : Prop :=
  ∀ s, files (st (m s)) = files s ∧
       Forall (fun c => is_file_call c = false) (calls (evs (m s))).

End AutomationEnv.

(* ===================================================================== *)
(** * Sample runs *)
(* ===================================================================== *)

Module Scenario.

(** An operation that fails twice and then succeeds: its state counts the
    invocations so far. *)
Definition flaky_twice (n : nat) : outcome string * nat :=
  if (n <? 2)%nat then (Throw (ErrorObj "timeout"), S n) else (Ret "posted", S n).

(** A page on which nothing matches and every call goes through, and a
    logged-in session on it. *)
Definition bare_page : Browser.Env :=
  {| Browser.dom := fun _ => false;
     Browser.fails := fun _ => None;
     Browser.cwd := "/app";
     Browser.now := 1700000000000;
     Browser.format := fun _ pattern => pattern |}.

(** The same page, on which the query for the first admin selector
    rejects with a protocol error. *)
Definition query_rejects : Browser.Env :=
  {| Browser.dom := fun _ => false;
     Browser.fails := fun c => match c with
                               | CQuery "[aria-label=Page Settings]" =>
                                   Some (ErrorObj "Protocol error (DOM.querySelector)")
                               | _ => None
                               end;
     Browser.cwd := "/app";
     Browser.now := 1700000000000;
     Browser.format := fun _ pattern => pattern |}.

Definition logged_in : Browser.Session :=
  {| Browser.browser := true; Browser.page := true; Browser.isLoggedIn := true;
     Browser.files := ∅ |}.

(** A page on which every selector matches and every call goes through. *)
Definition composer_page : Browser.Env :=
  {| Browser.dom := fun _ => true;
     Browser.fails := fun _ => None;
     Browser.cwd := "/app";
     Browser.now := 1700000000000;
     Browser.format := fun _ pattern => pattern |}.

(** The same page, on which attaching a file to the upload input
    rejects. *)
Definition upload_rejects : Browser.Env :=
  {| Browser.dom := fun _ => true;
     Browser.fails := fun c => match c with
                               | CUploadFile _ => Some (ErrorObj "upload failed")
                               | _ => None
                               end;
     Browser.cwd := "/app";
     Browser.now := 1700000000000;
     Browser.format := fun _ pattern => pattern |}.

(** The class as it is written: every selector matches and every call
    goes through, except [this.navigateToPage], which is no function. *)
Definition as_written : Browser.Env :=
  {| Browser.dom := fun _ => true;
     Browser.fails := fun c => match c with
                               | CNavigateToPage _ =>
                                   Some (ErrorObj "this.navigateToPage is not a function")
                               | _ => None
                               end;
     Browser.cwd := "/app";
     Browser.now := 1700000000000;
     Browser.format := fun _ pattern => pattern |}.

Definition hello_with_image : Automation.PostOptions :=
  {| Automation.content := "Hello";
     Automation.imageUrl := Some "https://example.com/a.jpg";
     Automation.scheduledTime := None;
     Automation.firstComment := None |}.

(** Two due posts, as the due-post query returns them, and the store at
    boot, one minute after they fell due. *)
Definition post_a : Scheduler.Post :=
  {| Scheduler.id := "a"; Scheduler.status := Scheduler.scheduled;
     Scheduler.scheduled_for := Some 1000; Scheduler.error := None;
     Scheduler.updated_at := 0; Scheduler.selectedPages := None |}.

Definition post_b : Scheduler.Post :=
  {| Scheduler.id := "b"; Scheduler.status := Scheduler.scheduled;
     Scheduler.scheduled_for := Some 2000; Scheduler.error := None;
     Scheduler.updated_at := 0; Scheduler.selectedPages := None |}.

Definition boot : Scheduler.Sched :=
  {| Scheduler.posts := [post_a; post_b]; Scheduler.clock := 61000;
     Scheduler.intervalId := None |}.

Definition only_a : Scheduler.Sched :=
  {| Scheduler.posts := [post_a]; Scheduler.clock := 61000;
     Scheduler.intervalId := None |}.

(** The store just before post a falls due. *)
Definition before_due : Scheduler.Sched :=
  {| Scheduler.posts := [post_a]; Scheduler.clock := 900;
     Scheduler.intervalId := None |}.

(** Publishing resolves and the store applies every write. *)
Definition healthy : Scheduler.Env :=
  {| Scheduler.publishPost_result := fun _ => None;
     Scheduler.select_error := None;
     Scheduler.write := fun _ => Scheduler.Applied |}.

(** Publishing rejects; the store applies every write. *)
Definition denied : Scheduler.Env :=
  {| Scheduler.publishPost_result := fun _ => Some (ErrorObj "AccessDenied");
     Scheduler.select_error := None;
     Scheduler.write := fun _ => Scheduler.Applied |}.

(** Publishing post a rejects, and the store resolves the write of its
    failed status with an error and applies nothing. *)
Definition write_back_refused : Scheduler.Env :=
  {| Scheduler.publishPost_result :=
       fun p => if String.eqb (Scheduler.id p) "a"
                then Some (ErrorObj "AccessDenied") else None;
     Scheduler.select_error := None;
     Scheduler.write := fun c => match c with
                                 | CUpdateFailed _ _ => Scheduler.Refused
                                 | _ => Scheduler.Applied
                                 end |}.

(** The same publishing failure with a store that applies its writes. *)
Definition one_bad_post : Scheduler.Env :=
  {| Scheduler.publishPost_result :=
       fun p => if String.eqb (Scheduler.id p) "a"
                then Some (ErrorObj "AccessDenied") else None;
     Scheduler.select_error := None;
     Scheduler.write := fun _ => Scheduler.Applied |}.

(** A storage that holds nothing and accepts writes, and a short session of
    calls on the token manager. *)
Definition empty_storage : TokenManager.Storage :=
  {| TokenManager.fb_tokens := None; TokenManager.setItem_fails := false |}.

Definition page_session : list TokenRequests.request :=
  [ TokenRequests.SetToken 0 "page-1" "secret" 60;
    TokenRequests.GetToken 1000 "page-1";
    TokenRequests.SetToken 2000 "page-2" "other" 1;
    TokenRequests.GetToken 5000 "page-2";
    TokenRequests.SetToken 6000 "page-3" "third" 3600 ].

(** A manager that holds one token, for page-2, valid until 60000. *)
Definition one_token : TokenManager.TM :=
  {| TokenManager.tokens :=
       {[ "page-2" := {| TokenManager.token := "other"; TokenManager.expiresAt := 60000 |} ]};
     TokenManager.storage := empty_storage |}.

(** An operation that fails every time. *)
Definition always_fails (n : nat) : outcome string * nat :=
  (Throw (ErrorObj "timeout"), S n).

(** A page that shows the admin panel and nothing else. *)
Definition admin_page : Browser.Env :=
  {| Browser.dom := fun sel => String.eqb sel "[data-testid=page_admin_panel]";
     Browser.fails := fun _ => None;
     Browser.cwd := "/app";
     Browser.now := 1700000000000;
     Browser.format := fun _ pattern => pattern |}.

(** A page on which closing the browser rejects. *)
Definition close_rejects : Browser.Env :=
  {| Browser.dom := fun _ => true;
     Browser.fails := fun c => match c with
                               | CBrowserClose => Some (ErrorObj "Target closed")
                               | _ => None
                               end;
     Browser.cwd := "/app";
     Browser.now := 1700000000000;
     Browser.format := fun _ pattern => pattern |}.

(** A session before the login, and a logged-in session with a file on
    disk. *)
Definition logged_out : Browser.Session :=
  {| Browser.browser := true; Browser.page := true; Browser.isLoggedIn := false;
     Browser.files := ∅ |}.

Definition with_notes : Browser.Session :=
  {| Browser.browser := true; Browser.page := true; Browser.isLoggedIn := true;
     Browser.files := {[ "/app/notes.txt" ]} |}.

Definition hello_text_only : Automation.PostOptions :=
  {| Automation.content := "Hello";
     Automation.imageUrl := Some "";
     Automation.scheduledTime := None;
     Automation.firstComment := None |}.

(** Two values of [process.env]: the password is set to the empty string;
    both credentials are set. *)
Definition password_empty : gmap string string :=
  {[ "FACEBOOK_EMAIL" := "admin@example.com"; "FACEBOOK_PASSWORD" := "" ]}.

Definition credentials : gmap string string :=
  {[ "FACEBOOK_EMAIL" := "admin@example.com"; "FACEBOOK_PASSWORD" := "hunter2" ]}.

(** The due-post query comes back with an error. *)
Definition query_fails : Scheduler.Env :=
  {| Scheduler.publishPost_result := fun _ => None;
     Scheduler.select_error := Some (ErrorObj "connection lost");
     Scheduler.write := fun _ => Scheduler.Applied |}.

(** Publishing resolves; the store resolves the 'published' writes with an
    error and applies nothing. *)
Definition store_refuses : Scheduler.Env :=
  {| Scheduler.publishPost_result := fun _ => None;
     Scheduler.select_error := None;
     Scheduler.write := fun c => match c with
                                 | CUpdatePublished _ => Scheduler.Refused
                                 | _ => Scheduler.Applied
                                 end |}.

(** Publishing resolves; the 'published' write rejects. *)
Definition published_write_rejects : Scheduler.Env :=
  {| Scheduler.publishPost_result := fun _ => None;
     Scheduler.select_error := None;
     Scheduler.write := fun c => match c with
                                 | CUpdatePublished _ => Scheduler.Rejected (ErrorObj "fetch failed")
                                 | _ => Scheduler.Applied
                                 end |}.

End Scenario.

(* ===================================================================== *)
(** * Properties of the token store *)
(* ===================================================================== *)

Ltac run_eff :=
  unfold bind, try_catch, get, modify, ret, throw, log, sleep, emit;
  cbn [val st evs app fst snd].

Section TokenStore.
Import TokenManager.

Ltac run_tm :=
  run_eff; unfold set_tokens, set_item;
  cbn [val st evs app tokens storage fb_tokens setItem_fails truthy].

(** Replaying the entries of a parsed document into a map gives the
    document's entries on top of what the map held. *)
Lemma foldl_insert_entries {A} (l : list (string * A)) (t : gmap string A) :
  NoDup l.*1 →
  foldl (fun t kv => <[kv.1 := kv.2]> t) t l = list_to_map l ∪ t.
Proof.
  revert t. induction l as [|[k v] l IH]; intros t Hnd; simpl.
  - by rewrite (left_id_L ∅ (∪)).
  - apply NoDup_cons in Hnd as [Hk Hnd].
    rewrite IH by done.
    apply map_eq. intros i.
    rewrite !lookup_union, !lookup_insert.
    destruct (decide (k = i)) as [->|Hne]; simpl.
    + rewrite (not_elem_of_list_to_map_1 _ i Hk). simpl.
      by rewrite union_Some_l.
    + done.
Qed.

Lemma load_entries {A} (m : gmap string A) :
  foldl (fun t kv => <[kv.1 := kv.2]> t) ∅ (map_to_list m) = m.
Proof.
  rewrite foldl_insert_entries by apply NoDup_fst_map_to_list.
  by rewrite list_to_map_to_list, (right_id_L ∅ (∪)).
Qed.

Lemma saveTokens_returns (w : TM) : val (saveTokens w) = Ret tt.
Proof. unfold saveTokens, setItem. run_tm. by destruct (setItem_fails (storage w)). Qed.

Lemma saveTokens_tokens (w : TM) : tokens (st (saveTokens w)) = tokens w.
Proof. unfold saveTokens, setItem. run_tm. by destruct (setItem_fails (storage w)). Qed.

Lemma saveTokens_persisted (w : TM) :
  setItem_fails (storage w) = false → persisted (st (saveTokens w)) = tokens w.
Proof. intros H. unfold saveTokens, setItem, persisted. run_tm. rewrite H. by run_tm. Qed.

Lemma saveTokens_failing (w : TM) :
  setItem_fails (storage w) = true →
  st (saveTokens w) = w ∧ evs (saveTokens w) = [EvLog LError "Failed to save tokens:"].
Proof. intros H. unfold saveTokens, setItem, persisted. run_tm. rewrite H. by run_tm. Qed.

(** C10.  setToken never throws, whatever the storage does: when the write
    to storage fails the error is logged and swallowed, the credential is
    still recorded in memory, and a get before the ttl has elapsed returns
    the token. *)
Theorem setToken_survives_failed_save
    (now now' : Z) (pageId tok : string) (ttl : Z) (w : TM)
    (Hbefore : now' < now + ttl * 1000) :
  let r := setToken now pageId tok ttl w in
  val r = Ret tt ∧
  tokens (st r) !! pageId = Some {| token := tok; expiresAt := now + ttl * 1000 |} ∧
  (setItem_fails (storage w) = true →
     evs r = [EvLog LError "Failed to save tokens:"] ∧ storage (st r) = storage w) ∧
  val (getToken now' pageId (st r)) = Ret (Some tok).
Proof.
  unfold setToken, getToken, saveTokens, setItem. run_tm.
  destruct (setItem_fails (storage w)) eqn:Hq; run_tm;
    rewrite lookup_insert_eq; cbn [expiresAt token];
    (destruct (Z.geb_spec now' (now + ttl * 1000)); [lia|]); done.
Qed.

Lemma setToken_survives_failed_save_witness :
  let w := {| tokens := ∅; storage := {| fb_tokens := None; setItem_fails := true |} |} in
  let r := setToken 0 "page-1" "secret" 60 w in
  val r = Ret tt ∧
  tokens (st r) !! "page-1" = Some {| token := "secret"; expiresAt := 0 + 60 * 1000 |} ∧
  (setItem_fails (storage w) = true →
     evs r = [EvLog LError "Failed to save tokens:"] ∧ storage (st r) = storage w) ∧
  val (getToken 59999 "page-1" (st r)) = Ret (Some "secret").
Proof.
  exact (setToken_survives_failed_save 0 59999 "page-1" "secret" 60
           {| tokens := ∅; storage := {| fb_tokens := None; setItem_fails := true |} |}
           ltac:(lia)).
Defined.

(** C2 (as amended).  getToken never returns a credential whose expiry
    instant is at or before the current time, and never throws.  A token
    set with ttl t and read at or after the end of the ttl is absent; that
    read purges the entry from the store, and from the persisted copy when
    the write to storage is accepted. *)
Theorem getToken_never_expired
    (now0 t eps : Z) (pageId tok : string) (w0 : TM) (Heps : (0 <= eps)%Z) :
  (∀ now w tok', val (getToken now pageId w) = Ret (Some tok') →
     ∃ info, tokens w !! pageId = Some info ∧ token info = tok' ∧ now < expiresAt info) ∧
  (∀ now w, ∃ o, val (getToken now pageId w) = Ret o) ∧
  let w1 := st (setToken now0 pageId tok t w0) in
  let r := getToken (now0 + t * 1000 + eps) pageId w1 in
  val r = Ret None ∧
  tokens (st r) !! pageId = None ∧
  (setItem_fails (storage w1) = false → persisted (st r) !! pageId = None).
Proof.
  split; [|split].
  - intros now w tok'. unfold getToken. run_tm.
    destruct (tokens w !! pageId) as [info|] eqn:Hl; run_tm; [|done].
    destruct (Z.geb_spec now (expiresAt info)); run_tm.
    + unfold saveTokens, setItem. run_tm.
      by destruct (setItem_fails (storage w)).
    + intros [= <-]. exists info. split; [done|]. split; [done|lia].
  - intros now w. unfold getToken. run_tm.
    destruct (tokens w !! pageId) as [info|]; run_tm; [|by eexists].
    destruct (now >=? expiresAt info); run_tm; [|by eexists].
    unfold saveTokens, setItem. run_tm.
    destruct (setItem_fails (storage w)); by eexists.
  - unfold setToken, getToken, saveTokens, setItem. run_tm.
    destruct (setItem_fails (storage w0)) eqn:Hq; run_tm;
      rewrite lookup_insert_eq; cbn [expiresAt];
      (destruct (Z.geb_spec (now0 + t * 1000 + eps) (now0 + t * 1000)); [|lia]); run_tm;
      rewrite ?Hq; run_tm; unfold persisted; run_tm;
      rewrite ?lookup_delete_eq; done.
Qed.

Lemma getToken_never_expired_witness :
  let w0 := {| tokens := ∅; storage := {| fb_tokens := None; setItem_fails := false |} |} in
  let w1 := st (setToken 0 "page-1" "secret" 60 w0) in
  let r := getToken (0 + 60 * 1000 + 1) "page-1" w1 in
  val r = Ret None ∧ tokens (st r) !! "page-1" = None ∧ persisted (st r) !! "page-1" = None.
Proof.
  pose proof (getToken_never_expired 0 60 1 "page-1" "secret"
                {| tokens := ∅; storage := {| fb_tokens := None; setItem_fails := false |} |}
                ltac:(lia)) as (_ & _ & Hv & Ht & Hp).
  exact (conj Hv (conj Ht (Hp eq_refl))).
Defined.

(** C2 (as stated) fails: a token is set while the storage accepts writes,
    the storage quota is then exhausted, and the read after the ttl purges
    the entry from the store but leaves it in the persisted copy. *)
Lemma getToken_expired_entry_stays_persisted :
  let w0 := {| tokens := ∅; storage := {| fb_tokens := None; setItem_fails := false |} |} in
  let w1 := quota_exhausted (st (setToken 0 "page-1" "secret" 60 w0)) in
  let r := getToken (0 + 60 * 1000 + 1) "page-1" w1 in
  val r = Ret None ∧
  tokens (st r) !! "page-1" = None ∧
  persisted (st r) !! "page-1" = Some {| token := "secret"; expiresAt := 60000 |}.
Proof. split; [|split]; vm_compute; reflexivity. Qed.

End TokenStore.

(* ===================================================================== *)
(** * Properties of the load of the persisted cache *)
(* ===================================================================== *)

Section CacheLoad.
Import PersistedCache.

Ltac run_load :=
  run_eff; unfold set_tokens, set_item;
  cbn [val st evs app tokens storage fb_tokens blocked truthy].

Lemma indexed_keys {A} (l : list A) : (indexed l).*1 = pretty <$> seq 0 (length l).
Proof.
  unfold indexed. apply list_eq. intros i.
  rewrite !list_lookup_fmap, list_lookup_imap.
  destruct (l !! i) as [x|] eqn:Hx; cbn.
  - rewrite lookup_seq_lt by (by eapply lookup_lt_Some). done.
  - rewrite lookup_seq_ge by (by apply lookup_ge_None). done.
Qed.

Lemma NoDup_indexed {A} (l : list A) : NoDup (indexed l).*1.
Proof. rewrite indexed_keys. apply NoDup_fmap_2; [apply _|apply NoDup_seq]. Qed.

Lemma lookup_indexed {A} (l : list A) (i : nat) :
  (list_to_map (indexed l) : gmap string A) !! pretty i = l !! i.
Proof.
  destruct (l !! i) as [x|] eqn:Hx.
  - apply elem_of_list_to_map; [apply NoDup_indexed|].
    unfold indexed. apply (elem_of_lookup_imap_2 (λ i x, (pretty i, x)) l x i Hx).
  - apply not_elem_of_list_to_map. rewrite indexed_keys.
    intros (j & Hj%(inj pretty) & Hin)%list_elem_of_fmap. subst j.
    apply elem_of_seq in Hin. apply lookup_ge_None in Hx. lia.
Qed.

Lemma NoDup_entries (v : json) : NoDup (entries v).*1.
Proof.
  destruct v; cbn; try apply NoDup_nil_2; try apply NoDup_indexed.
  apply NoDup_fst_map_to_list.
Qed.

(** Replaying the entries of a parsed value into the empty map. *)
Lemma replay_entries (v : json) :
  foldl (fun t kv => <[kv.1 := kv.2]> t) (∅ : gmap string json) (entries v) =
  list_to_map (entries v).
Proof.
  rewrite foldl_insert_entries by apply NoDup_entries.
  by rewrite (right_id_L ∅ (∪)).
Qed.

(** C7 (as amended).  As long as the storage can be accessed, loading the
    persisted token cache raises nothing.  Without an item, or with the
    empty string, the store starts empty.  A text that JSON.parse rejects,
    or that parses to null, is discarded: the error is logged, the item is
    removed and the store starts empty.  Every other parsed value is loaded
    without a check of its shape: its own entries become the entries of the
    store and the item is kept.  In particular an object restores every
    member it holds, so a document written by the store restores every
    (pageId, token, expiresAt) entry, and an array puts its elements in the
    store under their indices. *)
Theorem loadTokens_fail_safe (s : Storage) (Hopen : blocked s = None) :
  let r := construct s in
  val r = Ret tt ∧
  match fb_tokens s with
  | None | Some Empty =>
      tokens (st r) = ∅ ∧ storage (st r) = s ∧ evs r = []
  | Some (Unparsable _) | Some (Json JNull) =>
      tokens (st r) = ∅ ∧ fb_tokens (storage (st r)) = None ∧
      evs r = [EvLog LError "Failed to load saved tokens:"]
  | Some (Json v) =>
      tokens (st r) = list_to_map (entries v) ∧ storage (st r) = s ∧ evs r = [] ∧
      (∀ m, v = JObj m →
         tokens (st r) = m ∧
         ∀ pageId tok exp,
           m !! pageId =
             Some (info {| TokenManager.token := tok; TokenManager.expiresAt := exp |}) →
           tokens (st r) !! pageId =
             Some (info {| TokenManager.token := tok; TokenManager.expiresAt := exp |})) ∧
      (∀ items, v = JArr items → ∀ i : nat, tokens (st r) !! pretty i = items !! i)
  end.
Proof.
  unfold construct, loadTokens, getItem, removeItem, access, set_all.
  destruct s as [i b]. cbn in Hopen. subst b.
  destruct i as [[ | text | v]|]; run_load; try done.
  destruct v as [ | b | n | t | items | m]; unfold JSON_parse, Object_entries; run_load;
    try done;
    (split; [done|]); rewrite ?replay_entries; (split; [done|]);
    (split; [done|]); (split; [done|]); (split; [try done|try done]).
  - intros ? [= <-] i. apply lookup_indexed.
  - intros ? [= <-]. cbn [entries]. rewrite list_to_map_to_list.
    split; [done|]. by intros pageId tok exp ->.
Qed.

(** On a storage of the declared type the load is the load of
    [TokenManager]: the same outcome, the same log, the entries of the
    typed store as objects, the item kept or removed alike. *)
Lemma construct_typed (s : TokenManager.Storage) :
  let r := construct (usable s) in
  let r0 := TokenManager.construct s in
  val r = val r0 ∧ evs r = evs r0 ∧
  tokens (st r) = info <$> TokenManager.tokens (st r0) ∧
  storage (st r) = usable (TokenManager.storage (st r0)).
Proof.
  unfold construct, loadTokens, getItem, removeItem, access, set_all,
    JSON_parse, Object_entries, usable,
    TokenManager.construct, TokenManager.loadTokens, TokenManager.getItem,
    TokenManager.removeItem, TokenManager.set_all, TokenManager.JSON_parse,
    TokenManager.Object_entries.
  destruct s as [[[ | text | | m]|] q];
    do 2 (run_load; unfold TokenManager.set_tokens, TokenManager.set_item;
          cbn [TokenManager.tokens TokenManager.storage TokenManager.fb_tokens
               TokenManager.setItem_fails TokenManager.truthy fmap option_fmap
               option_map document val st evs tokens storage fb_tokens blocked
               truthy]);
    rewrite ?fmap_empty; try done.
  cbn [entries]. by rewrite !load_entries.
Qed.
End CacheLoad.

Lemma loadTokens_fail_safe_witness :
  let doc := {[ "page-1" := PersistedCache.info
                  {| TokenManager.token := "secret"; TokenManager.expiresAt := 60000 |} ]} in
  let s := {| PersistedCache.fb_tokens := Some (PersistedCache.Json (PersistedCache.JObj doc));
              PersistedCache.blocked := None |} in
  let r := PersistedCache.construct s in
  val r = Ret tt ∧
  PersistedCache.tokens (st r) = doc ∧
  PersistedCache.storage (st r) = s ∧
  PersistedCache.tokens (st r) !! "page-1" =
    Some (PersistedCache.info
            {| TokenManager.token := "secret"; TokenManager.expiresAt := 60000 |}).
Proof.
  pose proof (loadTokens_fail_safe
                {| PersistedCache.fb_tokens :=
                     Some (PersistedCache.Json (PersistedCache.JObj
                       {[ "page-1" := PersistedCache.info
                            {| TokenManager.token := "secret";
                               TokenManager.expiresAt := 60000 |} ]}));
                   PersistedCache.blocked := None |} eq_refl)
    as (Hv & _ & Hs & _ & Hobj & _).
  destruct (Hobj _ eq_refl) as [Ht Hentry].
  exact (conj Hv (conj Ht (conj Hs (Hentry "page-1" "secret" 60000 eq_refl)))).
Defined.

(** C7 (as stated) fails.  The stored text is the array [1, 2]: it is not
    a token cache, yet nothing is discarded; the load keeps the item and
    starts the store with the entries "0" and "1".  The same happens with
    the object {"p": "x"}, whose value is no credential.  And when the
    storage cannot be read at all, the error leaves the constructor: the
    removeItem of the catch block throws in its turn. *)
Lemma loadTokens_installs_misshaped_cache :
  let s1 := {| PersistedCache.fb_tokens :=
                 Some (PersistedCache.Json
                         (PersistedCache.JArr [PersistedCache.JNum 1; PersistedCache.JNum 2]));
               PersistedCache.blocked := None |} in
  let s2 := {| PersistedCache.fb_tokens :=
                 Some (PersistedCache.Json
                         (PersistedCache.JObj {[ "p" := PersistedCache.JStr "x" ]}));
               PersistedCache.blocked := None |} in
  let s3 := {| PersistedCache.fb_tokens := None;
               PersistedCache.blocked := Some (ErrorObj "SecurityError") |} in
  (val (PersistedCache.construct s1) = Ret tt ∧
   PersistedCache.tokens (st (PersistedCache.construct s1)) =
     {[ "0" := PersistedCache.JNum 1; "1" := PersistedCache.JNum 2 ]} ∧
   PersistedCache.storage (st (PersistedCache.construct s1)) = s1) ∧
  (PersistedCache.tokens (st (PersistedCache.construct s2)) =
     {[ "p" := PersistedCache.JStr "x" ]} ∧
   PersistedCache.storage (st (PersistedCache.construct s2)) = s2) ∧
  val (PersistedCache.construct s3) = Throw (ErrorObj "SecurityError").
Proof. repeat split; vm_compute; reflexivity. Qed.

(* ===================================================================== *)
(** * Properties of the retry policy *)
(* ===================================================================== *)

Section RetryPolicy.
Context {W T : Type}.
Variable op : W → outcome T * W.

Lemma recorded_run (w : W) (h : list (outcome T)) :
  Retry.recorded op (w, h) = Res (op w).1 ((op w).2, (h ++ [(op w).1])%list) [].
Proof. unfold Retry.recorded. simpl. by destruct (op w). Qed.

(** The loop from counter [i] with [k] iterations left, started on the
    history [h0]: what it adds to the history is a run of failures ended
    by the outcome it settles with. *)
Lemma retry_loop_history (attempts : nat) (after : M (W * list (outcome T)) T) :
  ∀ (k i : nat) (w : W) (h0 : list (outcome T)),
    (i + k = attempts)%nat → (1 <= k)%nat →
    let r := Retry.loop after (Retry.recorded op) attempts k i (w, h0) in
    ∃ hnew,
      (st r).2 = (h0 ++ hnew)%list ∧
      (1 <= length hnew <= k)%nat ∧
      Forall (λ o, is_throw o = true) (take (length hnew - 1) hnew) ∧
      last hnew = Some (val r) ∧
      (is_throw (val r) = true → length hnew = k) ∧
      sleeps (evs r) = replicate (length hnew - 1) Retry.retryDelay.
Proof.
  induction k as [|k IH]; intros i w h0 Hik Hk; [lia|].
  cbn [Retry.loop]. unfold try_catch. rewrite recorded_run.
  destruct (op w) as [[a|e] w'] eqn:Hop; cbn [val st evs fst snd].
  - exists [Ret a]. simpl. repeat split; try done; try lia; try constructor.
  - destruct (Nat.eqb_spec i (attempts - 1)) as [Hlast|Hmore].
    + exists [Throw e]. simpl. repeat split; try done; try lia; try constructor.
    + pose proof (IH (S i) w' (h0 ++ [Throw e])%list ltac:(lia) ltac:(lia)) as H.
      run_eff.
      destruct (Retry.loop after (Retry.recorded op) attempts k (S i)
                  (w', (h0 ++ [Throw e])%list)) as [v [w2 h2] es2].
      cbn [val st evs fst snd] in *.
      destruct H as (hnew & -> & Hlen & Hall & Hlst & Hthr & Hsl).
      exists (Throw e :: hnew).
      split; [by rewrite <- app_assoc|].
      split; [simpl; lia|].
      destruct hnew as [|o hnew]; [simpl in Hlen; lia|].
      simpl in *. rewrite Nat.sub_0_r in *.
      split; [by constructor|].
      split; [done|].
      split; [intros Hv; f_equal; by apply Hthr|].
      by rewrite Hsl.
Qed.

(** C3.  With at least one attempt allowed, retry invokes the operation at
    least once and at most maxAttempts times; every invocation but the
    last one failed; it settles with the outcome of the last invocation,
    which is the first success, or, only after maxAttempts failures, the
    last error; between two consecutive invocations it sleeps the fixed
    retry delay once.  With three attempts, an operation that fails twice
    and then succeeds yields the success after exactly three
    invocations. *)
Theorem retry_bounded (attempts : nat) (w : W) (Hpos : (1 <= attempts)%nat) :
  let r := Retry.retry (Retry.recorded op) attempts (w, []) in
  let history := (st r).2 in
  (1 <= length history <= attempts)%nat ∧
  Forall (λ o, is_throw o = true) (take (length history - 1) history) ∧
  last history = Some (val r) ∧
  (is_throw (val r) = true → length history = attempts) ∧
  sleeps (evs r) = replicate (length history - 1) Retry.retryDelay ∧
  (attempts = 3%nat →
   ∀ e1 w1 e2 w2 v w3,
     op w = (Throw e1, w1) → op w1 = (Throw e2, w2) → op w2 = (Ret v, w3) →
     val r = Ret v ∧ length history = 3%nat ∧ (st r).1 = w3).
Proof.
  intros r history. subst history r. unfold Retry.retry.
  assert (attempts = 3%nat →
          ∀ e1 w1 e2 w2 v w3,
            op w = (Throw e1, w1) → op w1 = (Throw e2, w2) → op w2 = (Ret v, w3) →
            let r := Retry.loop (throw (ErrorObj "Retry failed")) (Retry.recorded op)
                       attempts attempts 0%nat (w, []) in
            val r = Ret v ∧ length (st r).2 = 3%nat ∧ (st r).1 = w3) as Hthree.
  { intros -> e1 w1 e2 w2 v w3 H1 H2 H3. simpl.
    unfold try_catch. rewrite recorded_run, H1. simpl.
    run_eff. rewrite recorded_run, H2. simpl. rewrite recorded_run, H3. simpl. done. }
  destruct (retry_loop_history attempts (throw (ErrorObj "Retry failed"))
              attempts 0%nat w [] ltac:(lia) Hpos)
    as (hnew & Hh & Hlen & Hall & Hlst & Hthr & Hsl).
  simpl in Hh.
  split; [by rewrite Hh|]. split; [by rewrite Hh|]. split; [by rewrite Hh|].
  split; [by rewrite Hh|]. split; [by rewrite Hh|].
  exact Hthree.
Qed.

End RetryPolicy.

Lemma retry_bounded_witness :
  let r := Retry.retry (Retry.recorded Scenario.flaky_twice) 3 (0%nat, []) in
  val r = Ret "posted" ∧ length (st r).2 = 3%nat ∧
  sleeps (evs r) = [Retry.retryDelay; Retry.retryDelay].
Proof.
  pose proof (retry_bounded Scenario.flaky_twice 3 0%nat ltac:(lia))
    as (_ & _ & _ & _ & Hsl & H3).
  destruct (H3 eq_refl (ErrorObj "timeout") 1%nat (ErrorObj "timeout") 2%nat "posted" 3%nat
              eq_refl eq_refl eq_refl) as (Hv & Hl & _).
  split; [exact Hv|]. split; [exact Hl|].
  rewrite Hl in Hsl. exact Hsl.
Defined.

(* ===================================================================== *)
(** * Reading traces *)
(* ===================================================================== *)

Lemma sleeps_app (a b : list event) : sleeps (a ++ b) = (sleeps a ++ sleeps b)%list.
Proof. apply omap_app. Qed.
Lemma sleeps_nil : sleeps [] = [].
Proof. done. Qed.
Lemma sleeps_sleep (ms : Z) (l : list event) : sleeps (EvSleep ms :: l) = ms :: sleeps l.
Proof. done. Qed.
Lemma sleeps_log (lvl : level) (msg : string) (l : list event) :
  sleeps (EvLog lvl msg :: l) = sleeps l.
Proof. done. Qed.
Lemma sleeps_call (c : ext_call) (l : list event) : sleeps (EvCall c :: l) = sleeps l.
Proof. done. Qed.
Lemma sleeps_interval (ms : Z) (l : list event) : sleeps (EvSetInterval ms :: l) = sleeps l.
Proof. done. Qed.

Lemma calls_app (a b : list event) : calls (a ++ b) = (calls a ++ calls b)%list.
Proof. apply omap_app. Qed.
Lemma calls_nil : calls [] = [].
Proof. done. Qed.
Lemma calls_call (c : ext_call) (l : list event) : calls (EvCall c :: l) = c :: calls l.
Proof. done. Qed.
Lemma calls_log (lvl : level) (msg : string) (l : list event) :
  calls (EvLog lvl msg :: l) = calls l.
Proof. done. Qed.
Lemma calls_sleep (ms : Z) (l : list event) : calls (EvSleep ms :: l) = calls l.
Proof. done. Qed.
Lemma calls_interval (ms : Z) (l : list event) : calls (EvSetInterval ms :: l) = calls l.
Proof. done. Qed.

Create Rewrite HintDb trace.
#[global] Hint Rewrite sleeps_app sleeps_nil sleeps_sleep sleeps_log sleeps_call
  sleeps_interval calls_app calls_nil calls_call calls_log calls_sleep calls_interval
  : trace.
#[global] Hint Rewrite @app_nil_r @app_nil_l : trace.

(* ===================================================================== *)
(** * Properties of page navigation *)
(* ===================================================================== *)

Section PageAccess.
Import Browser Script.
Variable env : Env.

Ltac run_page :=
  unfold query, page_call, call, wait; run_eff.

(** One pass over selectors that match nothing: the session is left as it
    was, no timer is used, and the selectors are queried in order, each at
    most once, up to the first query that throws; what is thrown is the
    [TypeError] of a missing page or the rejection of that query. *)
Lemma any_present_absent (sels : list string) (s : Session) :
  absent env sels →
  let r := any_present env sels s in
  st r = s ∧
  (val r = Ret false ∨
   ∃ e, val r = Throw e ∧
        (e = ErrorObj "Cannot read properties of null" ∨
         ∃ sel, sel ∈ sels ∧ fails env (CQuery sel) = Some e)) ∧
  sleeps (evs r) = [] ∧ ∃ n, calls (evs r) = map CQuery (take n sels).
Proof.
  induction sels as [|sel sels IH]; intros Habs.
  - cbn. split; [done|]. split; [by left|]. split; [done|]. by exists 0%nat.
  - cbn [any_present]. run_page.
    destruct (page s) eqn:Hp; run_eff.
    + destruct (fails env (CQuery sel)) as [e|] eqn:Hf; run_eff.
      * split; [done|]. split; [|split; [done|by exists 1%nat]].
        right. exists e. split; [done|]. right. exists sel. split; [by left|done].
      * rewrite (Habs sel) by (by left).
        destruct IH as (Hst & Hv & Hsl & n & Hc).
        { intros sel' Hin. apply Habs. by right. }
        destruct (any_present env sels s) as [v s' es]. cbn [val st evs] in *.
        split; [done|]. split; [|split; [done|exists (S n); cbn; by rewrite <- Hc]].
        destruct Hv as [->|(e & -> & [->|(sel' & Hin & Hsel)])]; [by left|right..].
        -- exists (ErrorObj "Cannot read properties of null"). split; [done|by left].
        -- exists e. split; [done|]. right. exists sel'. split; [by right|done].
    + split; [done|]. split; [|split; [done|by exists 0%nat]].
      right. eexists. split; [done|by left].
Qed.

Lemma verifyPageAdminAccess_absent (s : Session) :
  absent env adminSelectors →
  rejects_with_values env adminSelectors →
  let r := verifyPageAdminAccess env s in
  st r = s ∧ val r = Ret false ∧
  sleeps (evs r) = [] ∧ ∃ n, calls (evs r) = map CQuery (take n adminSelectors).
Proof.
  intros Habs Hrej.
  pose proof (any_present_absent adminSelectors s Habs) as H.
  unfold verifyPageAdminAccess, try_catch.
  destruct (any_present env adminSelectors s) as [v0 s0 ev0]. cbn [val st evs] in H.
  destruct H as (-> & Hv & Hsl & n & Hc).
  destruct Hv as [->|(e & -> & He)].
  - split; [done|]. split; [done|]. split; [done|]. by exists n.
  - assert (read_message e = ret tt) as ->.
    { destruct He as [->|(sel & Hin & Hsel)]; [done|].
      destruct e as [m|d|u]; try done. by destruct (Hrej sel u Hin). }
    run_eff. split; [done|]. split; [done|].
    autorewrite with trace. rewrite Hsl, Hc.
    split; [done|]. by exists n.
Qed.

(** The verification wrapped in the retry loop runs once: it reports
    [false] instead of throwing, so the loop returns after its first
    iteration and never sleeps. *)
Lemma retry_verify_absent (s : Session) :
  absent env adminSelectors →
  rejects_with_values env adminSelectors →
  let r := retry (verifyPageAdminAccess env) s in
  st r = s ∧ val r = Ret (Some false) ∧
  sleeps (evs r) = [] ∧ ∃ n, calls (evs r) = map CQuery (take n adminSelectors).
Proof.
  intros Habs Hrej.
  pose proof (verifyPageAdminAccess_absent s Habs Hrej) as H.
  unfold retry. cbn [retry_loop Retry.retryAttempts]. unfold try_catch, bind.
  destruct (verifyPageAdminAccess env s) as [v0 s0 ev0]. cbn [val st evs] in H.
  destruct H as (-> & -> & Hsl & n & Hc). run_eff.
  rewrite app_nil_r. split; [done|]. split; [done|]. split; [done|]. by exists n.
Qed.


Ltac settle :=
  cbn [val st evs delays];
  autorewrite with trace;
  repeat match goal with
         | H : sleeps _ = _ |- _ => rewrite H
         | H : calls _ = _ |- _ => rewrite H
         end;
  cbn [app].

Ltac go :=
  run_eff;
  repeat (match goal with
          | H : page ?s = _ |- context [page ?s] => rewrite H
          end; run_eff).

Ltac early :=
  unfold read_message;
  try match goal with
      | |- context [match ?t with ErrorObj _ => _ | NonError _ => _ | Nullish _ => _ end] =>
          destruct t
      end;
  go;
  cbn [is_throw val];
  (split; [reflexivity|]);
  (split; [settle; rewrite ?elem_of_cons, elem_of_nil; unfold Retry.retryDelay;
           intuition discriminate|]);
  intros; simplify_eq.

(** C5.  When no admin-only control is present after navigation,
    navigateToPage never succeeds and never sleeps the retry delay; when
    the steps before the verification go through, it throws the error
    "No admin access to the page", leaves the session as it was, and the
    admin selectors are queried in one single pass: the verification is
    not run a second time.  The admin queries may go through or reject;
    a rejection is taken to carry a value other than null and undefined,
    as the rejections of puppeteer do. *)
Theorem navigateToPage_access_denied (pageId : string) (s : Session)
    (Habsent : absent env adminSelectors)
    (Hrejections : rejects_with_values env adminSelectors) :
  let r := navigateToPage env pageId s in
  is_throw (val r) = true ∧
  (Retry.retryDelay ∉ sleeps (evs r)) ∧
  (page s = true →
   fails env (CGoto (page_url pageId)) = None →
   fails env (CQuery sel_cookie) = None →
   fails env (CClick sel_cookie_accept) = None →
   fails env (CQuery sel_not_found) = None →
   dom env sel_not_found = false →
   val r = Throw (ErrorObj "No admin access to the page") ∧
   st r = s ∧
   ∃ n, calls (evs r) =
          ([CGoto (page_url pageId); CQuery sel_cookie] ++
           (if dom env sel_cookie then [CClick sel_cookie_accept] else []) ++
           [CQuery sel_not_found] ++
           map CQuery (take n adminSelectors))%list).
Proof.
  intros r. subst r.
  pose proof (retry_verify_absent s Habsent Hrejections) as Hretry.
  unfold navigateToPage. run_page.
  destruct (page s) eqn:Hp; go; [|early].
  destruct (fails env (CGoto _)) eqn:Hgoto; go; [early|].
  destruct (fails env (CQuery sel_cookie)) eqn:Hcq;
    go; [early|].
  destruct (dom env sel_cookie) eqn:Hcd; go.
  - destruct (fails env (CClick _)) eqn:Hclick; go; [early|].
    destruct (fails env (CQuery sel_not_found)) eqn:Hnq;
      go; [early|].
    destruct (dom env sel_not_found) eqn:Hnd; go; [early|].
    destruct (retry (verifyPageAdminAccess env) s) as [v0 s0 es0].
    cbn [val st evs] in Hretry. destruct Hretry as (-> & -> & Hsl & n & Hc). go.
    early. split; [done|]. split; [done|]. exists n. by settle.
  - destruct (fails env (CQuery sel_not_found)) eqn:Hnq;
      go; [early|].
    destruct (dom env sel_not_found) eqn:Hnd; go; [early|].
    destruct (retry (verifyPageAdminAccess env) s) as [v0 s0 es0].
    cbn [val st evs] in Hretry. destruct Hretry as (-> & -> & Hsl & n & Hc). go.
    early. split; [done|]. split; [done|]. exists n. by settle.
Qed.
End PageAccess.

Lemma navigateToPage_access_denied_witness :
  let r := Script.navigateToPage Scenario.query_rejects "1234" Scenario.logged_in in
  is_throw (val r) = true ∧
  (Retry.retryDelay ∉ sleeps (evs r)) ∧
  val r = Throw (ErrorObj "No admin access to the page") ∧
  st r = Scenario.logged_in ∧
  ∃ n, calls (evs r) =
         ([CGoto (Script.page_url "1234"); CQuery Script.sel_cookie] ++
          [] ++ [CQuery Script.sel_not_found] ++
          map CQuery (take n Script.adminSelectors))%list.
Proof.
  assert (Script.rejects_with_values Scenario.query_rejects Script.adminSelectors) as Hrej.
  { intros sel u Hin.
    repeat (apply elem_of_cons in Hin as [->|Hin]; [discriminate|]).
    by apply elem_of_nil in Hin. }
  pose proof (navigateToPage_access_denied Scenario.query_rejects "1234" Scenario.logged_in
                (fun sel _ => eq_refl) Hrej) as (H1 & H2 & H3).
  exact (conj H1 (conj H2 (H3 eq_refl eq_refl eq_refl eq_refl eq_refl eq_refl))).
Defined.

(* ===================================================================== *)
(** * Properties of a publish attempt *)
(* ===================================================================== *)

Section PublishAttempt.
Import Browser Automation.
Variable env : Env.

Lemma keeps_ret {A} (a : A) : keeps_session (ret a).
Proof. intros s. cbn. repeat split; try done. by intros ?%elem_of_nil. Qed.

Lemma keeps_throw {A} (e : thrown) : keeps_session (@throw Session A e).
Proof. intros s. cbn. repeat split; try done. by intros ?%elem_of_nil. Qed.

Lemma keeps_log (lvl : level) (msg : string) : keeps_session (log lvl msg).
Proof. intros s. cbn. repeat split; try done. by intros ?%elem_of_nil. Qed.

Lemma keeps_get : keeps_session get.
Proof. intros s. cbn. repeat split; try done. by intros ?%elem_of_nil. Qed.

Lemma keeps_bind {A B} (m : M Session A) (k : A → M Session B) :
  keeps_session m → (∀ a, keeps_session (k a)) → keeps_session (bind m k).
Proof.
  intros Hm Hk s. unfold bind. specialize (Hm s).
  destruct (m s) as [[a|e] s1 es1]; cbn [val st evs] in *; [|done].
  specialize (Hk a s1). destruct (k a s1) as [v s2 es2]. cbn [val st evs] in *.
  destruct Hk as (-> & -> & -> & Hn2), Hm as (-> & -> & -> & Hn1).
  repeat split; try done. rewrite calls_app, elem_of_app. tauto.
Qed.

Lemma keeps_try_catch {A} (m : M Session A) (h : thrown → M Session A) :
  keeps_session m → (∀ e, keeps_session (h e)) → keeps_session (try_catch m h).
Proof.
  intros Hm Hh s. unfold try_catch. specialize (Hm s).
  destruct (m s) as [[a|e] s1 es1]; cbn [val st evs] in *; [done|].
  specialize (Hh e s1). destruct (h e s1) as [v s2 es2]. cbn [val st evs] in *.
  destruct Hh as (-> & -> & -> & Hn2), Hm as (-> & -> & -> & Hn1).
  repeat split; try done. rewrite calls_app, elem_of_app. tauto.
Qed.

Lemma keeps_call (c : ext_call) : c ≠ CBrowserClose → keeps_session (call env c).
Proof.
  intros Hc s. unfold call. run_eff.
  destruct (fails env c); run_eff; autorewrite with trace;
    (split; [done|]); (split; [done|]); (split; [done|]);
    rewrite elem_of_cons, elem_of_nil; intros [?|[]]; congruence.
Qed.

Lemma keeps_page_call (c : ext_call) : c ≠ CBrowserClose → keeps_session (page_call env c).
Proof.
  intros Hc. unfold page_call. apply keeps_bind; [apply keeps_get|].
  intros s. destruct (page s); [by apply keeps_call|apply keeps_throw].
Qed.

Lemma keeps_set_files (f : Session → gset string) :
  keeps_session (modify (fun s => set_files (f s) s)).
Proof. intros s. cbn. repeat split; try done. by intros ?%elem_of_nil. Qed.


Ltac keeps :=
  repeat first
    [ assumption
    | apply keeps_page_call; discriminate
    | apply keeps_call; discriminate
    | apply keeps_ret | apply keeps_throw | apply keeps_log | apply keeps_get
    | apply keeps_set_files
    | apply keeps_try_catch; [|intros ?]
    | apply keeps_bind; [|intros ?]
    | match goal with
      | |- keeps_session (if ?b then _ else _) => destruct b
      | |- keeps_session (match ?o with Some _ => _ | None => _ end) => destruct o
      end ].

Lemma keeps_require_page : keeps_session require_page.
Proof. unfold require_page. keeps. Qed.

Lemma keeps_uploadImage (url : string) : keeps_session (uploadImage env url).
Proof.
  unfold uploadImage, query, writeFile, unlink. pose proof keeps_require_page. keeps.
Qed.

Lemma keeps_schedulePost (t : Z) : keeps_session (schedulePost env t).
Proof. unfold schedulePost. pose proof keeps_require_page. keeps. Qed.

Lemma keeps_createPost (pageId : string) (options : PostOptions) :
  keeps_session (createPost env pageId options).
Proof.
  unfold createPost, typeWithDelay, addFirstComment.
  pose proof keeps_require_page. pose proof keeps_uploadImage. pose proof keeps_schedulePost.
  keeps.
Qed.

Ltac go :=
  run_eff; unfold set_files; cbn [files page browser isLoggedIn];
  repeat (match goal with
          | H : page ?s = _ |- context [page ?s] => rewrite H
          end; run_eff).

(** When [uploadImage] returns, it has fetched the image, written the
    temporary file, attached it and removed it, in that order. *)
Lemma uploadImage_returns (url : string) (s : Session) :
  let r := uploadImage env url s in
  val r = Ret tt →
  calls (evs r) = [CQuery sel_imageUpload; CFetch url; CWriteFile (tempPath env);
                   CUploadFile (tempPath env); CUnlink (tempPath env)] ∧
  tempPath env ∉ files (st r).
Proof.
  intros r. subst r.
  unfold uploadImage, require_page, query, writeFile, unlink, page_call, call. go.
  destruct (page s) eqn:Hp; go; [|done].
  destruct (fails env (CQuery _)) eqn:Hq; go; [done|].
  destruct (dom env sel_imageUpload) eqn:Hd; go; [|done].
  destruct (fails env (CFetch _)) eqn:Hf; go; [done|].
  destruct (fails env (CWriteFile _)) eqn:Hw; go; [done|].
  destruct (fails env (CUploadFile _)) eqn:Hu; go; [done|].
  destruct (fails env (CUnlink _)) eqn:Hx; go; [done|].
  destruct (decide (tempPath env ∈ {[tempPath env]} ∪ files s)) as [Hin|Hnin]; go; [|done].
  intros _. split; [by autorewrite with trace|].
  intros [_ Hn]%elem_of_difference. apply Hn. by apply elem_of_singleton.
Qed.

(** ** Following a script of calls *)

Lemma runs_ret {A} (a : A) : runs_through [] (ret a).
Proof. intros s. by cbn. Qed.

Lemma runs_throw {A} (l : list ext_call) (e : thrown) : runs_through l (@throw Session A e).
Proof. intros s. cbn. split; [apply prefix_nil|done]. Qed.

Lemma runs_log (lvl : level) (msg : string) : runs_through [] (log lvl msg).
Proof. intros s. by cbn. Qed.

Lemma runs_get : runs_through [] (@get Session).
Proof. intros s. by cbn. Qed.

Lemma runs_modify (f : Session → Session) : runs_through [] (modify f).
Proof. intros s. by cbn. Qed.

Lemma runs_bind {A B} (l1 l2 : list ext_call) (m : M Session A) (k : A → M Session B) :
  runs_through l1 m → (∀ a, runs_through l2 (k a)) → runs_through (l1 ++ l2) (bind m k).
Proof.
  intros Hm Hk s. unfold bind. destruct (Hm s) as [Hpre Hall].
  destruct (m s) as [[a|e] s1 es1]; cbn [val st evs is_throw] in *.
  - destruct (Hk a s1) as [Hpre2 Hall2].
    destruct (k a s1) as [v s2 es2]. cbn [val st evs] in *.
    rewrite calls_app, (Hall eq_refl). split; [by apply prefix_app|].
    intros Hv. by rewrite Hall2.
  - split; [by apply prefix_app_r|done].
Qed.

(** A [catch] block that logs and throws the error on. *)
Lemma runs_rethrow {A} (l : list ext_call) (m : M Session A) (msg : string) :
  runs_through l m →
  runs_through l (try_catch m (fun error => log LError msg ;; throw error)).
Proof.
  intros Hm s. unfold try_catch. destruct (Hm s) as [Hpre Hall].
  destruct (m s) as [[a|e] s1 es1]; run_eff; [done|].
  autorewrite with trace. done.
Qed.

Lemma runs_call (c : ext_call) : runs_through [c] (call env c).
Proof.
  intros s. unfold call. run_eff.
  destruct (fails env c); run_eff; autorewrite with trace; done.
Qed.

Lemma runs_page_call (c : ext_call) : runs_through [c] (page_call env c).
Proof.
  intros s. unfold page_call. run_eff. destruct (page s).
  - pose proof (runs_call c s) as Hc. by destruct (call env c s).
  - cbn. split; [apply prefix_nil|done].
Qed.

Lemma runs_eq {A} (l l' : list ext_call) (m : M Session A) :
  l = l' → runs_through l m → runs_through l' m.
Proof. by intros ->. Qed.

Ltac runs :=
  repeat first
    [ apply runs_page_call | apply runs_call
    | apply runs_ret | apply runs_throw | apply runs_log | apply runs_get
    | apply runs_modify
    | apply runs_rethrow
    | eapply runs_bind; [|intros ?]
    | match goal with
      | |- runs_through _ (if ?b then _ else _) => destruct b
      end ].

Lemma runs_require_page : runs_through [] require_page.
Proof. unfold require_page. eapply runs_eq; [|runs]. done. Qed.

Lemma runs_uploadImage (url : string) :
  runs_through (upload_calls env url) (uploadImage env url).
Proof.
  unfold uploadImage, query, writeFile, unlink.
  eapply runs_eq; [|eapply runs_bind; [apply runs_require_page|intros ?]; runs].
  done.
Qed.

Lemma runs_schedulePost (t : Z) :
  runs_through (schedule_calls env t) (schedulePost env t).
Proof.
  unfold schedulePost.
  eapply runs_eq; [|eapply runs_bind; [apply runs_require_page|intros ?]; runs].
  done.
Qed.

Lemma runs_createPost (pageId : string) (options : PostOptions) :
  runs_through (attempt_calls env pageId options) (createPost env pageId options).
Proof.
  unfold createPost, attempt_calls, typeWithDelay, addFirstComment.
  destruct (given (imageUrl options)) as [url|], (scheduledTime options) as [t|],
    (given (firstComment options)) as [c|];
    (eapply runs_eq;
      [|apply runs_rethrow;
        repeat first
          [ apply runs_uploadImage | apply runs_schedulePost | apply runs_require_page
          | apply runs_page_call | apply runs_call
          | apply runs_ret | apply runs_throw | apply runs_log | apply runs_get
          | eapply runs_bind; [|intros ?]
          | match goal with
            | |- runs_through _ (if ?b then _ else _) => destruct b
            end ]]);
    reflexivity.
Qed.

(** When [createPost] returns and an image was given, the temporary file
    is gone. *)
Lemma createPost_returns (pageId : string) (options : PostOptions) (s : Session)
    (url : string) :
  given (imageUrl options) = Some url →
  val (createPost env pageId options s) = Ret tt →
  tempPath env ∉ files (st (createPost env pageId options s)).
Proof.
  intros Hurl.
  pose proof (uploadImage_returns url) as Hup.
  pose proof (keeps_uploadImage url) as Hkeep.
  unfold createPost, typeWithDelay, require_page, addFirstComment, page_call, call.
  rewrite Hurl. go.
  destruct (isLoggedIn s); go; [|done].
  destruct (page s) eqn:Hp; go; [|done].
  destruct (fails env (CNavigateToPage _)); go; [done|].
  destruct (fails env (CClick sel_composer)); go; [done|].
  destruct (fails env (CWaitForSelector _)); go; [done|].
  destruct (fails env (CType sel_textArea _)); go; [done|].
  specialize (Hup s). specialize (Hkeep s).
  destruct (uploadImage env url s) as [[[]|e] s1 es1]; cbn [val st evs] in *; go; [|done].
  destruct Hup as [_ Hgone]; [done|]. destruct Hkeep as (_ & Hp1 & _).
  rewrite Hp in Hp1.
  destruct (scheduledTime options) as [t|]; go.
  - unfold schedulePost, require_page, page_call, call. go.
    destruct (fails env (CClick sel_scheduleButton)); go; [done|].
    destruct (fails env (CType sel_dateInput _)); go; [done|].
    destruct (fails env (CType sel_timeInput _)); go; [done|].
    destruct (fails env (CClick sel_publishButton)); go; [done|].
    destruct (fails env CWaitForNavigation); go; [done|].
    by destruct (given (firstComment options)); go.
  - destruct (fails env (CClick sel_publishButton)); go; [done|].
    destruct (fails env CWaitForNavigation); go; [done|].
    by destruct (given (firstComment options)); go.
Qed.

(** C6 (as amended).  On every exit path of a publish attempt the calls
    made so far are the first calls of the attempt's script, in order; so
    the image is attached only after its bytes were fetched and written to
    the temporary file.  An attempt that completes has made every call of
    the script, the upload included, and has removed the temporary file; so
    has an upload step that completes.  The attempt itself never tears the
    session down: on every exit path [createPost] leaves the browser, the
    page and the login flag as they were and does not close the browser.
    Teardown is the separate [cleanup] call: with a browser present whose
    close goes through, it closes it and clears the session fields. *)
Theorem publish_attempt_resources (pageId : string) (options : PostOptions) (s : Session) :
  let r := createPost env pageId options s in
  calls (evs r) `prefix_of` attempt_calls env pageId options ∧
  (∀ i p, calls (evs r) !! i = Some (CUploadFile p) →
     ∃ url, given (imageUrl options) = Some url ∧ p = tempPath env ∧
            calls (evs r) !! (i - 2)%nat = Some (CFetch url) ∧
            calls (evs r) !! (i - 1)%nat = Some (CWriteFile (tempPath env))) ∧
  (val r = Ret tt →
     calls (evs r) = attempt_calls env pageId options ∧
     ∀ url, given (imageUrl options) = Some url → tempPath env ∉ files (st r)) ∧
  (∀ url s0,
     let u := uploadImage env url s0 in
     calls (evs u) `prefix_of` upload_calls env url ∧
     (val u = Ret tt →
        calls (evs u) = upload_calls env url ∧ tempPath env ∉ files (st u))) ∧
  keeps_session (createPost env pageId options) ∧
  (∀ s', browser s' = true → fails env CBrowserClose = None →
     let c := cleanup env s' in
     val c = Ret tt ∧ calls (evs c) = [CBrowserClose] ∧
     browser (st c) = false ∧ page (st c) = false ∧ isLoggedIn (st c) = false ∧
     files (st c) = files s').
Proof.
  cbv zeta.
  destruct (runs_createPost pageId options s) as [Hpre Hall].
  split; [done|]. split; [|split; [|split; [|split]]].
  - intros i p Hi.
    pose proof (prefix_lookup_Some _ _ _ _ Hi Hpre) as Hscript.
    assert (∀ j : nat, (j < i)%nat →
              calls (evs (createPost env pageId options s)) !! j =
              attempt_calls env pageId options !! j) as Hbefore.
    { intros j Hj. apply prefix_lookup_lt; [|done].
      apply lookup_lt_Some in Hi. lia. }
    unfold attempt_calls, upload_calls, schedule_calls in *.
    destruct (given (imageUrl options)) as [url|], (scheduledTime options) as [t|];
      cbn [app] in *;
      do 15 (try (destruct i as [|i]; [try discriminate Hscript|cbn in Hscript]));
      try discriminate Hscript.
    + injection Hscript as <-. exists url. split; [done|]. split; [done|].
      split; (rewrite Hbefore; [done|cbn; lia]).
    + injection Hscript as <-. exists url. split; [done|]. split; [done|].
      split; (rewrite Hbefore; [done|cbn; lia]).
  - intros Hv. split.
    + apply Hall. by rewrite Hv.
    + intros url Hurl. by apply createPost_returns with url.
  - intros url s0. destruct (runs_uploadImage url s0) as [Hp0 _].
    split; [done|]. intros Hv. by apply uploadImage_returns.
  - apply keeps_createPost.
  - intros s' Hopen Hclose. unfold cleanup, call. go. rewrite Hopen. go. rewrite Hclose. go.
    by autorewrite with trace.
Qed.
End PublishAttempt.

Lemma publish_attempt_resources_witness :
  let env := Scenario.composer_page in
  let url := "https://example.com/a.jpg" in
  let u := Automation.uploadImage env url Scenario.logged_in in
  (calls (evs u) = Automation.upload_calls env url ∧
   Automation.tempPath env ∉ Browser.files (st u)) ∧
  Browser.keeps_session (Automation.createPost env "1234" Scenario.hello_with_image) ∧
  (let c := Automation.cleanup env Scenario.logged_in in
   val c = Ret tt ∧ calls (evs c) = [CBrowserClose] ∧
   Browser.browser (st c) = false ∧ Browser.page (st c) = false ∧
   Browser.isLoggedIn (st c) = false ∧
   Browser.files (st c) = Browser.files Scenario.logged_in).
Proof.
  pose proof (publish_attempt_resources Scenario.composer_page "1234"
                Scenario.hello_with_image Scenario.logged_in)
    as (_ & _ & _ & Hupload & Hkeeps & Hcleanup).
  destruct (Hupload "https://example.com/a.jpg" Scenario.logged_in) as [_ Hdone].
  exact (conj (Hdone ltac:(vm_compute; reflexivity))
           (conj Hkeeps (Hcleanup Scenario.logged_in eq_refl eq_refl))).
Defined.

(** C6 (as stated) fails.  In the upload step the attach rejects: the step
    exits by the error with the temporary file still on disk, no unlink was
    issued.  And the attempt as the class is written, in which
    [navigateToPage] is no function, exits by the error with the browser
    still open, the page and the login flag as they were, and no close
    issued: the session is not torn down on that exit path. *)
Lemma publish_attempt_leaves_file_and_session :
  (let env := Scenario.upload_rejects in
   let u := Automation.uploadImage env "https://example.com/a.jpg" Scenario.logged_in in
   val u = Throw (ErrorObj "upload failed") ∧
   Browser.files (st u) = {[ Automation.tempPath env ]} ∧
   calls (evs u) =
     [CQuery Automation.sel_imageUpload; CFetch "https://example.com/a.jpg";
      CWriteFile (Automation.tempPath env); CUploadFile (Automation.tempPath env)]) ∧
  (let r := Automation.createPost Scenario.as_written "1234" Scenario.hello_with_image
              Scenario.logged_in in
   val r = Throw (ErrorObj "this.navigateToPage is not a function") ∧
   Browser.browser (st r) = true ∧ Browser.page (st r) = true ∧
   Browser.isLoggedIn (st r) = true ∧
   (CBrowserClose ∉ calls (evs r))).
Proof.
  split; [repeat split; vm_compute; reflexivity|].
  split; [vm_compute; reflexivity|]. split; [vm_compute; reflexivity|].
  split; [vm_compute; reflexivity|]. split; [vm_compute; reflexivity|].
  apply (keeps_createPost Scenario.as_written "1234" Scenario.hello_with_image
           Scenario.logged_in).
Qed.

(* ===================================================================== *)
(** * Properties of the scheduler *)
(* ===================================================================== *)

Section SchedulerTick.
Import Scheduler.
Variable env : Env.

Lemma dispatched_app (a b : list event) :
  dispatched (a ++ b) = (dispatched a ++ dispatched b)%list.
Proof. apply omap_app. Qed.

Lemma dispatched_cons (e : event) (l : list event) :
  dispatched (e :: l) =
  match e with
  | EvCall (CPublishPost i) => i :: dispatched l
  | _ => dispatched l
  end.
Proof. by destruct e as [| | |[]]. Qed.

Ltac run_sched :=
  run_eff; unfold set_posts; cbn [posts clock intervalId].

Ltac read_dispatched :=
  repeat (rewrite ?dispatched_app, ?dispatched_cons; cbv beta iota);
  change (dispatched []) with (@nil string); cbn [app].

(** A post is processed by one publish call; only rows change. *)
Lemma process_frame (post : Post) (w : Sched) :
  let r := processScheduledPost env post w in
  dispatched (evs r) = [id post] ∧ clock (st r) = clock w ∧
  intervalId (st r) = intervalId w.
Proof.
  unfold processScheduledPost, publishPost, publishPost_issue, publishPost_settle,
    after_publish, on_failure, initializeAnalytics, store_update.
  destruct (publishPost_result env post) as [e|]; run_sched.
  - destruct (write env (CUpdateFailed _ _)); run_sched; by read_dispatched.
  - destruct (write env (CUpdatePublished _)) eqn:Hw; run_sched.
    + destruct (selectedPages post), (write env (CInsertAnalytics (id post))); run_sched;
        by read_dispatched.
    + destruct (selectedPages post), (write env (CInsertAnalytics (id post))); run_sched;
        by read_dispatched.
    + destruct (write env (CUpdateFailed _ _)); run_sched; by read_dispatched.
Qed.

Lemma process_applied (post : Post) (w : Sched) :
  write env (CUpdatePublished (id post)) = Applied →
  (∀ msg, write env (CUpdateFailed (id post) msg) = Applied) →
  let r := processScheduledPost env post w in
  val r = Ret tt ∧
  posts (st r) = update_rows (id post) (settled_row env post (clock w)) (posts w).
Proof.
  intros Hp Hf.
  unfold processScheduledPost, publishPost, publishPost_issue, publishPost_settle,
    after_publish, on_failure, initializeAnalytics, store_update, settled_row.
  destruct (publishPost_result env post) as [e|]; run_sched.
  - rewrite Hf. by run_sched.
  - rewrite Hp. run_sched.
    destruct (selectedPages post), (write env (CInsertAnalytics (id post))); by run_sched.
Qed.

(** Whatever its collaborators do, a tick returns normally. *)
Lemma checkScheduledPosts_returns (w : Sched) :
  val (checkScheduledPosts env w) = Ret tt.
Proof.
  unfold checkScheduledPosts, try_catch, on_check_error.
  destruct (bind _ _ w) as [[[]|e] w1 es1]; by run_sched.
Qed.

(** The loop dispatches the posts of its list in order, one publish call
    each, and stops early only when a post's processing throws. *)
Lemma for_each_dispatch (l : list Post) (w : Sched) :
  let r := for_each env l w in
  clock (st r) = clock w ∧ intervalId (st r) = intervalId w ∧
  (∃ n, dispatched (evs r) = take n (id <$> l)) ∧
  (val r = Ret tt → dispatched (evs r) = id <$> l).
Proof.
  revert w. induction l as [|p l IH]; intros w.
  - cbn. split; [done|]. split; [done|]. split; [by exists 0%nat|done].
  - cbn [for_each]. unfold bind.
    pose proof (process_frame p w) as Hp.
    destruct (processScheduledPost env p w) as [[[]|e] w1 es1]; cbn [val st evs] in *.
    + destruct Hp as (Hd & Hc & Hi).
      specialize (IH w1). destruct (for_each env l w1) as [v w2 es2].
      cbn [val st evs] in *. destruct IH as (Hc2 & Hi2 & [n Hn] & Hall).
      split; [congruence|]. split; [congruence|].
      rewrite dispatched_app, Hd. split.
      * exists (S n). cbn. by rewrite Hn.
      * intros Hv. cbn. by rewrite Hall.
    + destruct Hp as (Hd & Hc & Hi).
      split; [done|]. split; [done|]. split; [|done].
      exists 1%nat. rewrite Hd. cbn. by rewrite take_0.
Qed.

Lemma select_due_spec (w : Sched) :
  let r := select_due env w in
  st r = w ∧ evs r = [EvCall (CSelectDue (clock w))] ∧
  val r = match select_error env with
          | Some e => Throw e
          | None => Ret (filter (λ p, is_due (clock w) p = true) (posts w))
          end.
Proof. unfold select_due. run_sched. by destruct (select_error env). Qed.

Lemma is_due_spec (now : Z) (p : Post) :
  is_due now p = true ↔
  status p = scheduled ∧ ∃ t, scheduled_for p = Some t ∧ (t <= now)%Z.
Proof.
  unfold is_due. rewrite andb_true_iff, bool_decide_eq_true.
  destruct (scheduled_for p) as [t|].
  - rewrite Z.leb_le. split.
    + intros [? ?]. split; [done|]. by exists t.
    + intros [? (t' & [= <-] & ?)]. done.
  - split; [by intros [_ ?]|]. by intros [_ (t & ? & _)].
Qed.

(** What a tick does: the query, then the loop over what it returned. *)
Lemma checkScheduledPosts_run (w : Sched) :
  let r := checkScheduledPosts env w in
  match select_error env with
  | Some e =>
      st r = w ∧
      evs r = [EvCall (CSelectDue (clock w)); EvLog LError "Error checking scheduled posts:"]
  | None =>
      let due := filter (λ p, is_due (clock w) p = true) (posts w) in
      let loop := for_each env due w in
      st r = st loop ∧
      dispatched (evs r) = dispatched (evs loop) ∧
      head (evs r) = Some (EvCall (CSelectDue (clock w))) ∧
      (val loop = Ret tt → evs r = EvCall (CSelectDue (clock w)) :: evs loop)
  end.
Proof.
  unfold checkScheduledPosts, select_due, on_check_error. run_sched.
  destruct (select_error env) as [e|]; run_sched; [done|].
  destruct (for_each env _ w) as [[[]|e] w1 es1]; run_sched.
  - by read_dispatched.
  - read_dispatched. by rewrite ?app_nil_r.
Qed.


Lemma settled_row_id (post q : Post) (now : Z) : id (settled_row env post now q) = id q.
Proof. unfold settled_row. by destruct (publishPost_result env post). Qed.

Lemma settled_row_status (post q : Post) (now : Z) :
  status (settled_row env post now q) =
  match publishPost_result env post with None => published | Some _ => failed end.
Proof. unfold settled_row. by destruct (publishPost_result env post). Qed.

Lemma elem_of_update_rows (i : string) (f : Post → Post) (l : list Post) (q' : Post) :
  q' ∈ update_rows i f l ↔
  ∃ q, q ∈ l ∧ q' = if String.eqb (id q) i then f q else q.
Proof.
  unfold update_rows. rewrite list_elem_of_fmap.
  split; [intros (q & -> & Hq)|intros (q & Hq & ->)]; by exists q.
Qed.

(** C1 (as amended).  A post is processed by one post-level publish call.
    When the store applies the status write, every row of the post ends
    'published' if and only if that call resolved, and 'failed', with the
    error's message, if and only if it rejected; it never stays
    'scheduled', and the rows of other posts are not touched.  Outcomes
    per target page are not represented. *)
Theorem processScheduledPost_rollup (post : Post) (w : Sched)
    (Hpub : write env (CUpdatePublished (id post)) = Applied)
    (Hfail : ∀ msg, write env (CUpdateFailed (id post) msg) = Applied) :
  let r := processScheduledPost env post w in
  val r = Ret tt ∧
  dispatched (evs r) = [id post] ∧
  posts (st r) = update_rows (id post) (settled_row env post (clock w)) (posts w) ∧
  (∀ q, q ∈ posts (st r) → id q = id post →
     (status q = published ↔ publishPost_result env post = None) ∧
     (status q = failed ↔
        ∃ e, publishPost_result env post = Some e ∧ error q = Some (message_of e)) ∧
     status q ≠ scheduled) ∧
  (∀ q, q ∈ posts (st r) → id q ≠ id post → q ∈ posts w).
Proof.
  intros r. subst r.
  destruct (process_applied post w Hpub Hfail) as [Hv Hposts].
  destruct (process_frame post w) as (Hd & _ & _).
  split; [done|]. split; [done|]. split; [done|]. rewrite Hposts. split.
  - intros q' (q & Hq & ->)%elem_of_update_rows Hid.
    destruct (String.eqb_spec (id q) (id post)) as [Heq|Hne].
    + unfold settled_row.
      destruct (publishPost_result env post) as [e|]; cbn.
      * split; [done|]. split; [|done]. split; [|done]. intros _. by exists e.
      * split; [done|]. split; [|done]. split; [done|]. by intros (e & ? & _).
    + done.
  - intros q' (q & Hq & ->)%elem_of_update_rows Hid.
    destruct (String.eqb_spec (id q) (id post)) as [Heq|Hne]; [|done].
    by rewrite settled_row_id in Hid.
Qed.

(** With the writes applied, the loop goes through its whole list and the
    table ends as the list's row changes applied in order. *)
Lemma for_each_applied (Hw : writes_applied env) (l : list Post) (w : Sched) :
  let r := for_each env l w in
  val r = Ret tt ∧
  posts (st r) =
    foldl (λ rows p, update_rows (id p) (settled_row env p (clock w)) rows) (posts w) l.
Proof.
  revert w. induction l as [|p l IH]; intros w; [done|].
  cbn [for_each foldl]. unfold bind.
  destruct (process_applied p w (Hw _) (λ msg, Hw _)) as [Hv Hposts].
  destruct (process_frame p w) as (_ & Hc & _).
  destruct (processScheduledPost env p w) as [v w1 es1]. cbn [val st evs] in *.
  subst v. specialize (IH w1).
  destruct (for_each env l w1) as [v2 w2 es2]. cbn [val st evs] in *.
  destruct IH as [-> ->]. by rewrite Hposts, Hc.
Qed.

Lemma handled_step (ids : list string) (rows : list Post) (p : Post) (now : Z) :
  handled ids rows →
  handled (ids ++ [id p]) (update_rows (id p) (settled_row env p now) rows).
Proof.
  intros Hh q' (q & Hq & ->)%elem_of_update_rows Hin.
  destruct (String.eqb_spec (id q) (id p)) as [Heq|Hne].
  - rewrite settled_row_status. by destruct (publishPost_result env p).
  - apply (Hh q Hq). apply elem_of_app in Hin as [Hin|Hin]; [done|].
    apply list_elem_of_singleton in Hin. congruence.
Qed.

Lemma handled_loop (now : Z) (l : list Post) :
  ∀ (ids : list string) (rows : list Post),
    handled ids rows →
    handled (ids ++ (id <$> l))
      (foldl (λ rows p, update_rows (id p) (settled_row env p now) rows) rows l).
Proof.
  induction l as [|p l IH]; intros ids rows Hh; cbn [foldl fmap list_fmap].
  - by rewrite app_nil_r.
  - rewrite (cons_middle (id p)), app_assoc. apply IH. by apply handled_step.
Qed.

(** A publish that rejects does not stop the loop: as long as no write on
    the store rejects, every post of the list is processed and the tick
    dispatches every due post. *)
Lemma process_returns (Hs : writes_settle env) (p : Post) (w : Sched) :
  val (processScheduledPost env p w) = Ret tt.
Proof.
  unfold processScheduledPost, publishPost, publishPost_issue, publishPost_settle,
    after_publish, on_failure, initializeAnalytics, store_update.
  destruct (publishPost_result env p) as [e|]; run_sched.
  - destruct (write env (CUpdateFailed _ _)) eqn:Hw; run_sched; try done.
    by apply Hs in Hw.
  - destruct (write env (CUpdatePublished _)) eqn:Hw; run_sched.
    + by destruct (selectedPages p), (write env (CInsertAnalytics (id p))).
    + by destruct (selectedPages p), (write env (CInsertAnalytics (id p))).
    + by apply Hs in Hw.
Qed.

Lemma for_each_returns (Hs : writes_settle env) (l : list Post) (w : Sched) :
  val (for_each env l w) = Ret tt.
Proof.
  revert w. induction l as [|p l IH]; intros w; [done|].
  cbn [for_each]. unfold bind.
  pose proof (process_returns Hs p w) as Hp.
  destruct (processScheduledPost env p w) as [v w1 es1]. cbn [val] in Hp. subst v.
  specialize (IH w1). by destruct (for_each env l w1) as [v2 w2 es2].
Qed.

Lemma tick_isolates_publish_failures (Hs : writes_settle env) (w : Sched) :
  select_error env = None →
  dispatched (evs (checkScheduledPosts env w)) =
  id <$> filter (λ p, is_due (clock w) p = true) (posts w).
Proof.
  intros Hsel. pose proof (checkScheduledPosts_run w) as Hrun. rewrite Hsel in Hrun.
  cbn zeta in Hrun. destruct Hrun as (_ & -> & _).
  apply for_each_dispatch, for_each_returns, Hs.
Qed.

(** *** The step model against the method

    A call of [checkScheduledPosts] that runs alone, one await after the
    other, ends with the world and the events of the method. *)
Lemma run_app (a b : list action) (s : System) :
  run env (a ++ b) s = run env b (run env a s).
Proof. apply foldl_app. Qed.

Lemma process_resume (p : Post) (w : Sched) :
  processScheduledPost env p w =
  Res (val (resume env p w)) (st (resume env p w))
      (EvCall (CPublishPost (id p)) :: evs (resume env p w)).
Proof.
  unfold processScheduledPost, resume, publishPost, publishPost_issue. run_sched.
  destruct (publishPost_settle env p w) as [[[]|e] w1 es1]; run_sched.
  - by destruct (after_publish env p w1) as [[[]|e] w2 es2]; run_sched;
      [|destruct (on_failure env p e w2)].
  - by destruct (on_failure env p e w1).
Qed.

Lemma loop_alone (l : list Post) :
  ∀ (w : Sched) (tr : list event),
    let r := try_catch (for_each env l) on_check_error w in
    ∃ n, run env (replicate n (Run 0)) (alone (TLoop l) w tr) =
         alone TDone (st r) (tr ++ evs r).
Proof.
  induction l as [|p l IH]; intros w tr.
  - exists 1%nat. cbn. unfold alone. by rewrite app_nil_r.
  - cbn [for_each]. unfold try_catch, bind. rewrite process_resume.
    cbn [val st evs].
    destruct (resume env p w) as [[[]|e] w1 es1] eqn:Hres.
    + destruct (IH w1 (tr ++ EvCall (CPublishPost (id p)) :: es1)%list) as [n Hn].
      exists (2 + n)%nat. rewrite (replicate_add 2 n), run_app.
      cbn [replicate run foldl step alone tasks lookup list_lookup run_task
             world trace next_fire publishPost_issue emit val st evs insert list_insert].
      rewrite Hres. cbn [val st evs].
      unfold alone in Hn. rewrite <- app_assoc. cbn [app].
      fold (run env (replicate n (Run 0))). rewrite Hn.
      unfold try_catch.
      destruct (for_each env l w1) as [[[]|e] w2 es2]; cbn [val st evs].
      * by rewrite <- app_assoc.
      * destruct (on_check_error e w2) as [v3 w3 es3]. cbn [val st evs].
        f_equal. rewrite <- !app_assoc. cbn [app]. by rewrite <- app_assoc.
    + exists 2%nat.
      cbn [replicate run foldl step alone tasks lookup list_lookup run_task
             world trace next_fire publishPost_issue emit val st evs insert list_insert].
      rewrite Hres. cbn [val st evs].
      destruct (on_check_error e w1) as [v3 w3 es3]. cbn [val st evs].
      f_equal. rewrite <- !app_assoc. by cbn [app].
Qed.

Lemma tick_alone (w : Sched) (tr : list event) :
  let r := checkScheduledPosts env w in
  ∃ n, run env (replicate n (Run 0)) (alone TQuery w tr) =
       alone TDone (st r) (tr ++ evs r).
Proof.
  unfold checkScheduledPosts.
  pose proof (select_due_spec w) as (Hst & Hev & Hv).
  destruct (select_error env) as [e|] eqn:Herr.
  - exists 1%nat.
    cbn [replicate run foldl step alone tasks lookup list_lookup run_task
           world trace next_fire val st evs insert list_insert].
    unfold try_catch, bind.
    destruct (select_due env w) as [v w1 es1]. cbn [val st evs] in *. subst.
    by destruct (on_check_error e w).
  - destruct (loop_alone (filter (λ p, is_due (clock w) p = true) (posts w)) w
                (tr ++ [EvCall (CSelectDue (clock w))])%list) as [n Hn].
    exists (1 + n)%nat. rewrite (replicate_add 1 n), run_app.
    cbn [replicate run foldl step alone tasks lookup list_lookup run_task
           world trace next_fire val st evs insert list_insert].
    unfold try_catch, bind in *.
    destruct (select_due env w) as [v w1 es1]. cbn [val st evs] in *. subst.
    fold (run env (replicate n (Run 0))). unfold alone in Hn. rewrite Hn.
    destruct (for_each env _ w) as [[[]|e] w2 es2]; cbn [val st evs].
    + by rewrite <- app_assoc.
    + destruct (on_check_error e w2) as [v3 w3 es3]. cbn [val st evs].
      by rewrite <- !app_assoc.
Qed.

(** C4 (as amended).  In a tick that runs to its end (the query succeeds,
    the store applies the writes), every due post is dispatched exactly
    once, in the order the query returned them; and when the tick has
    ended none of the posts it dispatched is due any more, so a tick that
    begins after the end of this one does not select them again.  (The
    scheduler keeps no in-flight marker.) *)
Theorem tick_dispatches_each_due_post_once (w : Sched)
    (Hids : NoDup (id <$> posts w))
    (Hsel : select_error env = None)
    (Hw : writes_applied env) :
  let r := checkScheduledPosts env w in
  let due := filter (λ p, is_due (clock w) p = true) (posts w) in
  val r = Ret tt ∧
  dispatched (evs r) = id <$> due ∧
  NoDup (dispatched (evs r)) ∧
  (∀ now' q, q ∈ posts (st r) → is_due now' q = true → id q ∉ dispatched (evs r)).
Proof.
  intros r due. subst r.
  pose proof (checkScheduledPosts_run w) as Hrun. rewrite Hsel in Hrun.
  cbn zeta in Hrun. fold due in Hrun. destruct Hrun as (Hst & Hd & _ & _).
  destruct (for_each_applied Hw due w) as [Hv Hposts].
  destruct (for_each_dispatch due w) as (_ & _ & _ & Hall).
  rewrite Hd, (Hall Hv), Hst, Hposts.
  split; [apply checkScheduledPosts_returns|]. split; [done|]. split.
  - eapply sublist_NoDup; [exact Hids|]. apply fmap_sublist, sublist_filter.
  - intros now' q Hq Hdue Hin.
    apply is_due_spec in Hdue as [Hs _].
    pose proof (handled_loop (clock w) due [] (posts w)) as Hh.
    apply (Hh ltac:(by intros ? ? ?%elem_of_nil) q Hq); done.
Qed.

(** C9.  A tick never throws, whatever fails in it, and it leaves the
    clock and the armed interval as they were; the tick that follows
    returns normally as well and begins with its query at its own time.
    The store's client settles every write: it applies it or resolves with
    an error member, it does not reject.  Then the processing of a post
    returns normally whatever fails on that post's path (the publish call,
    the status write, the write-back of the failed status, the analytics),
    so a tick whose query succeeds dispatches every due post, in the order
    the query returned them, and so does the tick that follows for what is
    due then. *)
Theorem tick_isolates_post_failures (w : Sched) :
  let r := checkScheduledPosts env w in
  let next dt := checkScheduledPosts env (SchedulerRows.later dt (st r)) in
  val r = Ret tt ∧
  clock (st r) = clock w ∧ intervalId (st r) = intervalId w ∧
  (∀ dt, val (next dt) = Ret tt ∧
         head (evs (next dt)) = Some (EvCall (CSelectDue (clock w + dt)))) ∧
  (writes_settle env →
     (∀ post w0, val (processScheduledPost env post w0) = Ret tt) ∧
     (select_error env = None →
        dispatched (evs r) = id <$> filter (λ p, is_due (clock w) p = true) (posts w) ∧
        ∀ dt, dispatched (evs (next dt)) =
                id <$> filter (λ p, is_due (clock w + dt) p = true) (posts (st r)))).
Proof.
  cbv zeta.
  assert (∀ w0, clock (st (checkScheduledPosts env w0)) = clock w0 ∧
                intervalId (st (checkScheduledPosts env w0)) = intervalId w0 ∧
                head (evs (checkScheduledPosts env w0)) =
                  Some (EvCall (CSelectDue (clock w0)))) as Htick.
  { intros w0. pose proof (checkScheduledPosts_run w0) as Hrun.
    destruct (select_error env) as [e|].
    - destruct Hrun as [-> ->]. done.
    - cbv zeta in Hrun. destruct Hrun as (-> & _ & Hhead & _).
      by destruct (for_each_dispatch
                     (filter (λ p, is_due (clock w0) p = true) (posts w0)) w0)
        as (? & ? & _). }
  destruct (Htick w) as (Hclock & Hinterval & _).
  split; [apply checkScheduledPosts_returns|].
  split; [done|]. split; [done|]. split.
  - intros dt.
    destruct (Htick (SchedulerRows.later dt (st (checkScheduledPosts env w))))
      as (_ & _ & Hhead).
    split; [apply checkScheduledPosts_returns|].
    unfold SchedulerRows.later in *. cbn [clock posts] in Hhead.
    by rewrite Hclock in Hhead |- *.
  - intros Hsettle.
    split; [intros post w0; by apply process_returns|].
    intros Hsel. split; [by apply tick_isolates_publish_failures|].
    intros dt. rewrite (tick_isolates_publish_failures Hsettle _ Hsel).
    unfold SchedulerRows.later. cbn [clock posts]. by rewrite Hclock.
Qed.
End SchedulerTick.

Lemma tick_dispatches_each_due_post_once_witness :
  let r := Scheduler.checkScheduledPosts Scenario.one_bad_post Scenario.boot in
  val r = Ret tt ∧
  Scheduler.dispatched (evs r) = ["a"; "b"] ∧
  NoDup (Scheduler.dispatched (evs r)) ∧
  (∀ now' q, q ∈ Scheduler.posts (st r) → Scheduler.is_due now' q = true →
             Scheduler.id q ∉ Scheduler.dispatched (evs r)).
Proof.
  exact (tick_dispatches_each_due_post_once Scenario.one_bad_post Scenario.boot
           ltac:(compute_done) eq_refl (fun _ => eq_refl)).
Defined.

(** C4 (as stated) fails: the scheduler is started just before post a falls
    due; the first interval tick selects post a and is suspended inside its
    publish call; the interval passes again and the next tick begins; its
    query returns post a again, still 'scheduled', and it dispatches a
    second publish for it while the first one is in flight. *)
Lemma overlapping_ticks_dispatch_twice :
  let s0 := Scheduler.started Scenario.healthy Scenario.before_due in
  let s1 := Scheduler.run Scenario.healthy
              [Scheduler.Advance Scheduler.checkInterval; Scheduler.Fire;
               Scheduler.Run 0; Scheduler.Run 0] s0 in
  let s2 := Scheduler.run Scenario.healthy
              [Scheduler.Advance Scheduler.checkInterval; Scheduler.Fire;
               Scheduler.Run 1; Scheduler.Run 1] s1 in
  Scheduler.dispatched (Scheduler.trace s0) = [] ∧
  Scheduler.mid_publish "a" s1 = true ∧
  Scheduler.dispatched (Scheduler.trace s1) = ["a"] ∧
  Scheduler.tasks s2 = [Scheduler.TPublishing Scenario.post_a [];
                        Scheduler.TPublishing Scenario.post_a []] ∧
  Scheduler.dispatched (Scheduler.trace s2) = ["a"; "a"].
Proof. split; [|split; [|split; [|split]]]; vm_compute; reflexivity. Qed.


Lemma processScheduledPost_rollup_witness :
  let r := Scheduler.processScheduledPost Scenario.denied Scenario.post_a Scenario.boot in
  val r = Ret tt ∧
  Scheduler.dispatched (evs r) = ["a"] ∧
  Scheduler.status <$> Scheduler.posts (st r) = [Scheduler.failed; Scheduler.scheduled] ∧
  Scheduler.error <$> Scheduler.posts (st r) = [Some "AccessDenied"; None].
Proof.
  pose proof (processScheduledPost_rollup Scenario.denied Scenario.post_a Scenario.boot
                eq_refl (fun _ => eq_refl)) as (Hv & Hd & Hp & _).
  split; [exact Hv|]. split; [exact Hd|].
  rewrite Hp. split; reflexivity.
Defined.

(** C1 (as stated) fails: with page A published and page B failing in a
    retryable way the roll-up of the specification keeps the post
    'scheduled', while the code has one publish call for the whole post and
    ends it 'published' when the call resolves and 'failed' when it
    rejects. *)
Lemma processScheduledPost_never_stays_scheduled :
  Scheduler.spec_rollup [Scheduler.Published; Scheduler.RetryableFailure "timeout"]
    = Scheduler.scheduled ∧
  Scheduler.status <$>
    Scheduler.posts (st (Scheduler.processScheduledPost Scenario.healthy Scenario.post_a
                           Scenario.only_a)) = [Scheduler.published] ∧
  Scheduler.status <$>
    Scheduler.posts (st (Scheduler.processScheduledPost Scenario.denied Scenario.post_a
                           Scenario.only_a)) = [Scheduler.failed].
Proof. split; [|split]; vm_compute; reflexivity. Qed.

Lemma tick_isolates_post_failures_witness :
  let r := Scheduler.checkScheduledPosts Scenario.write_back_refused Scenario.boot in
  val r = Ret tt ∧
  Scheduler.dispatched (evs r) = ["a"; "b"] ∧
  Scheduler.status <$> Scheduler.posts (st r) = [Scheduler.scheduled; Scheduler.published] ∧
  Scheduler.dispatched
    (evs (Scheduler.checkScheduledPosts Scenario.write_back_refused
            (SchedulerRows.later Scheduler.checkInterval (st r)))) = ["a"].
Proof.
  pose proof (tick_isolates_post_failures Scenario.write_back_refused Scenario.boot)
    as (Hv & _ & _ & _ & Hsettled).
  destruct (Hsettled ltac:(intros [] e; discriminate)) as (_ & Hd).
  destruct (Hd eq_refl) as (Hd1 & Hd2).
  split; [exact Hv|]. split; [exact Hd1|].
  split; [vm_compute; reflexivity|].
  rewrite (Hd2 Scheduler.checkInterval). vm_compute. reflexivity.
Defined.

(* ===================================================================== *)
(** * Further properties of the token store *)
(* ===================================================================== *)

Section TokenStoreMore.
Import TokenManager TokenRequests.

Ltac run_tok :=
  run_eff; unfold set_tokens, set_item;
  cbn [val st evs app tokens storage fb_tokens setItem_fails truthy].

Lemma construct_storage_flag (s : Storage) :
  setItem_fails (storage (st (construct s))) = setItem_fails s.
Proof.
  unfold construct, loadTokens, getItem, removeItem, set_all.
  by destruct s as [[[ | text | | m]|] q]; run_tok; unfold JSON_parse, Object_entries;
    run_tok.
Qed.

(** A new manager starts with the persisted copy: what it holds is what a
    later load would see. *)
Lemma construct_in_sync (s : Storage) : in_sync (st (construct s)).
Proof.
  unfold in_sync, persisted, construct, loadTokens, getItem, removeItem, set_all.
  destruct s as [[[ | text | | m]|] q]; run_tok; unfold JSON_parse, Object_entries;
    run_tok; try done.
  by rewrite load_entries.
Qed.

Lemma serve_storage_flag (c : request) (w : TM) :
  setItem_fails (storage (serve c w)) = setItem_fails (storage w).
Proof.
  destruct c as [now p tok ttl|now p|]; cbn [serve].
  - unfold setToken, saveTokens, setItem. run_tok.
    by destruct (setItem_fails (storage w)) eqn:Hq; run_tok.
  - unfold getToken, saveTokens, setItem. run_tok.
    destruct (tokens w !! p) as [info|]; run_tok; [|done].
    destruct (now >=? expiresAt info); run_tok; [|done].
    by destruct (setItem_fails (storage w)) eqn:Hq; run_tok.
  - unfold clearTokens, removeItem. by run_tok.
Qed.

Lemma serve_in_sync (c : request) (w : TM) :
  setItem_fails (storage w) = false → in_sync w → in_sync (serve c w).
Proof.
  unfold in_sync, persisted. intros Hq Hs.
  destruct c as [now p tok ttl|now p|]; cbn [serve].
  - unfold setToken, saveTokens, setItem. run_tok. rewrite Hq. by run_tok.
  - unfold getToken, saveTokens, setItem. run_tok.
    destruct (tokens w !! p) as [info|]; run_tok; [|done].
    destruct (now >=? expiresAt info); run_tok; [|done].
    rewrite Hq. by run_tok.
  - unfold clearTokens, removeItem. by run_tok.
Qed.

Lemma token_store_in_sync_aux (s : Storage) (cs : list request) :
  setItem_fails s = false → in_sync (serve_all cs (st (construct s))).
Proof.
  intros Hwrites.
  pose proof (construct_in_sync s) as Hs.
  pose proof (construct_storage_flag s) as Hq. rewrite Hwrites in Hq.
  revert Hs Hq. generalize (st (construct s)) as w.
  induction cs as [|c cs IH]; intros w Hs Hq; [done|].
  cbn [serve_all foldl]. apply IH.
  - by apply serve_in_sync.
  - by rewrite serve_storage_flag.
Qed.

(** X1.  While the storage accepts writes, the persisted copy follows the
    map in memory: from a new manager on, after every sequence of setToken,
    getToken and clearTokens calls, the persisted copy holds exactly the
    credentials the manager holds. *)
Theorem token_store_stays_in_sync (s : Storage) (cs : list request)
    (Hwrites : setItem_fails s = false) :
  in_sync (serve_all cs (st (construct s))) ∧
  ∀ pageId, persisted (serve_all cs (st (construct s))) !! pageId =
            tokens (serve_all cs (st (construct s))) !! pageId.
Proof.
  pose proof (token_store_in_sync_aux s cs Hwrites) as H.
  split; [done|]. intros p. by rewrite H.
Qed.

Lemma getToken_val (now : Z) (p : string) (w : TM) :
  val (getToken now p w) =
  Ret (match tokens w !! p with
       | Some info => if now >=? expiresAt info then None else Some (token info)
       | None => None
       end).
Proof.
  unfold getToken, saveTokens, setItem. run_tok.
  destruct (tokens w !! p) as [info|]; run_tok; [|done].
  destruct (now >=? expiresAt info); run_tok; [|done].
  by destruct (setItem_fails (storage w)); run_tok.
Qed.

Lemma construct_loads_persisted (w : TM) :
  tokens (st (construct (storage w))) = persisted w.
Proof.
  unfold persisted, construct, loadTokens, getItem, removeItem, set_all.
  destruct (storage w) as [[[ | text | | m]|] q]; run_tok; unfold JSON_parse, Object_entries;
    run_tok; try done.
  by rewrite load_entries.
Qed.

(** X2.  Credentials survive a restart: while the storage accepts writes,
    after any sequence of calls a manager constructed anew from the storage
    holds the same credentials as the running one, and answers every
    getToken the same way. *)
Theorem restart_restores_credentials (s : Storage) (cs : list request)
    (Hwrites : setItem_fails s = false) :
  let w := serve_all cs (st (construct s)) in
  let w' := st (construct (storage w)) in
  tokens w' = tokens w ∧
  ∀ now pageId, val (getToken now pageId w') = val (getToken now pageId w).
Proof.
  intros w w'. subst w'.
  assert (tokens (st (construct (storage w))) = tokens w) as Heq.
  { rewrite construct_loads_persisted. by apply token_store_in_sync_aux. }
  split; [done|]. intros now p. by rewrite !getToken_val, Heq.
Qed.

(** X3.  Pages are independent: setting the token of one page, or evicting
    its expired token, does not change what getToken answers for another
    page. *)
Theorem other_pages_untouched
    (now now' : Z) (pageId other tok : string) (expiresIn : Z) (w : TM)
    (Hother : pageId ≠ other) :
  val (getToken now' other (st (setToken now pageId tok expiresIn w))) =
    val (getToken now' other w) ∧
  val (getToken now' other (st (getToken now pageId w))) =
    val (getToken now' other w).
Proof.
  rewrite !getToken_val. split.
  - unfold setToken, saveTokens, setItem. run_tok.
    destruct (setItem_fails (storage w)); run_tok; by rewrite lookup_insert_ne.
  - unfold getToken, saveTokens, setItem. run_tok.
    destruct (tokens w !! pageId) as [info|]; run_tok; [|done].
    destruct (now >=? expiresAt info); run_tok; [|done].
    destruct (setItem_fails (storage w)); run_tok; by rewrite lookup_delete_ne.
Qed.

(** X4.  getToken only writes when it evicts: for a page with no entry, or
    with an entry that has not expired, it returns the stored token (or
    null), leaves the manager and the storage exactly as they were and logs
    nothing. *)
Theorem getToken_read_only (now : Z) (pageId : string) (w : TM)
    (Hlive : ∀ info, tokens w !! pageId = Some info → now < expiresAt info) :
  let r := getToken now pageId w in
  st r = w ∧ evs r = [] ∧ val r = Ret (token <$> tokens w !! pageId).
Proof.
  unfold getToken. run_tok.
  destruct (tokens w !! pageId) as [info|] eqn:Hl; run_tok; [|done].
  specialize (Hlive info eq_refl).
  destruct (Z.geb_spec now (expiresAt info)); [lia|]. by run_tok.
Qed.


(** X6.  The last token set for a page wins: a second setToken for the same
    page leaves the map as if the first one had never happened, and before
    the second ttl has elapsed getToken returns the second token. *)
Theorem setToken_last_write_wins
    (now1 now2 now' : Z) (pageId tok1 tok2 : string) (ttl1 ttl2 : Z) (w : TM)
    (Hbefore : now' < now2 + ttl2 * 1000) :
  let w2 := st (setToken now2 pageId tok2 ttl2 (st (setToken now1 pageId tok1 ttl1 w))) in
  tokens w2 = tokens (st (setToken now2 pageId tok2 ttl2 w)) ∧
  val (getToken now' pageId w2) = Ret (Some tok2).
Proof.
  intros w2. subst w2. rewrite getToken_val.
  unfold setToken, saveTokens, setItem. run_tok.
  destruct (setItem_fails (storage w)) eqn:Hq; run_tok; rewrite ?Hq; run_tok;
    rewrite insert_insert_eq, lookup_insert_eq; cbn [expiresAt token];
    (destruct (Z.geb_spec now' (now2 + ttl2 * 1000)); [lia|done]).
Qed.

(** X7.  A token set with a ttl of zero or less is never handed out: every
    getToken at or after the time of the setToken answers null. *)
Theorem setToken_nonpositive_ttl
    (now now' : Z) (pageId tok : string) (expiresIn : Z) (w : TM)
    (Httl : expiresIn <= 0) (Hlater : now <= now') :
  val (getToken now' pageId (st (setToken now pageId tok expiresIn w))) = Ret None.
Proof.
  rewrite getToken_val.
  unfold setToken, saveTokens, setItem. run_tok.
  destruct (setItem_fails (storage w)); run_tok; rewrite lookup_insert_eq; cbn [expiresAt];
    (destruct (Z.geb_spec now' (now + expiresIn * 1000)); [done|lia]).
Qed.
End TokenStoreMore.

Lemma token_store_stays_in_sync_witness :
  let w := TokenRequests.serve_all Scenario.page_session
             (st (TokenManager.construct Scenario.empty_storage)) in
  TokenRequests.in_sync w ∧
  ∀ pageId, TokenManager.persisted w !! pageId = TokenManager.tokens w !! pageId.
Proof.
  exact (token_store_stays_in_sync Scenario.empty_storage Scenario.page_session eq_refl).
Defined.

Lemma restart_restores_credentials_witness :
  let w := TokenRequests.serve_all Scenario.page_session
             (st (TokenManager.construct Scenario.empty_storage)) in
  let w' := st (TokenManager.construct (TokenManager.storage w)) in
  TokenManager.tokens w' = TokenManager.tokens w ∧
  ∀ now pageId, val (TokenManager.getToken now pageId w') =
                val (TokenManager.getToken now pageId w).
Proof.
  exact (restart_restores_credentials Scenario.empty_storage Scenario.page_session eq_refl).
Defined.

Lemma other_pages_untouched_witness :
  val (TokenManager.getToken 1000 "page-2"
         (st (TokenManager.setToken 0 "page-1" "secret" 60 Scenario.one_token))) =
    val (TokenManager.getToken 1000 "page-2" Scenario.one_token) ∧
  val (TokenManager.getToken 1000 "page-2"
         (st (TokenManager.getToken 0 "page-1" Scenario.one_token))) =
    val (TokenManager.getToken 1000 "page-2" Scenario.one_token).
Proof.
  exact (other_pages_untouched 0 1000 "page-1" "page-2" "secret" 60 Scenario.one_token
           ltac:(discriminate)).
Defined.

Lemma getToken_read_only_witness :
  let r := TokenManager.getToken 1000 "page-2" Scenario.one_token in
  st r = Scenario.one_token ∧ evs r = [] ∧ val r = Ret (Some "other").
Proof.
  exact (getToken_read_only 1000 "page-2" Scenario.one_token
           ltac:(intros info Hinfo; vm_compute in Hinfo; injection Hinfo as <-;
                 reflexivity)).
Defined.

Lemma setToken_last_write_wins_witness :
  let w2 := st (TokenManager.setToken 1000 "page-2" "new" 60
                  (st (TokenManager.setToken 0 "page-2" "old" 3600 Scenario.one_token))) in
  TokenManager.tokens w2 =
    TokenManager.tokens (st (TokenManager.setToken 1000 "page-2" "new" 60 Scenario.one_token)) ∧
  val (TokenManager.getToken 2000 "page-2" w2) = Ret (Some "new").
Proof.
  exact (setToken_last_write_wins 0 1000 2000 "page-2" "old" "new" 3600 60 Scenario.one_token
           ltac:(lia)).
Defined.

Lemma setToken_nonpositive_ttl_witness :
  val (TokenManager.getToken 0 "page-1"
         (st (TokenManager.setToken 0 "page-1" "secret" 0 Scenario.one_token))) = Ret None.
Proof.
  exact (setToken_nonpositive_ttl 0 0 "page-1" "secret" 0 Scenario.one_token
           ltac:(lia) ltac:(lia)).
Defined.

(* ===================================================================== *)
(** * Further properties of the scheduler *)
(* ===================================================================== *)

Section SchedulerMore.
Import Scheduler SchedulerRows.
Variable env : Env.

Ltac run_sch :=
  run_eff; unfold set_posts; cbn [posts clock intervalId].

Lemma row_step_refl (ids : list string) (q : Post) : row_step ids q q.
Proof. unfold row_step. auto. Qed.

Lemma row_step_mono (ids ids' : list string) (q q' : Post) :
  ids ⊆ ids' → row_step ids q q' → row_step ids' q q'.
Proof.
  intros Hsub (Hi & Hs & Hp & [->|[Hin Hst]]); [apply row_step_refl|].
  unfold row_step. repeat split; try done. right. split; [by apply Hsub|done].
Qed.

Lemma row_step_trans (ids : list string) (q q' q'' : Post) :
  row_step ids q q' → row_step ids q' q'' → row_step ids q q''.
Proof.
  intros (Hi & Hs & Hp & H1) (Hi' & Hs' & Hp' & H2).
  unfold row_step. rewrite Hi', Hs', Hp'. repeat split; try done.
  destruct H2 as [->|[Hin Hst]]; [done|].
  right. split; [by rewrite <- Hi|done].
Qed.

Lemma rows_refl (ids : list string) (l : list Post) : Forall2 (row_step ids) l l.
Proof. induction l; constructor; auto using row_step_refl. Qed.

Lemma rows_trans (ids : list string) (l l' l'' : list Post) :
  Forall2 (row_step ids) l l' → Forall2 (row_step ids) l' l'' →
  Forall2 (row_step ids) l l''.
Proof. apply Forall2_trans. intros ? ? ?. apply row_step_trans. Qed.

Lemma rows_mono (ids ids' : list string) (l l' : list Post) :
  ids ⊆ ids' → Forall2 (row_step ids) l l' → Forall2 (row_step ids') l l'.
Proof.
  intros Hsub H. eapply Forall2_impl; [exact H|]. intros ? ?. by apply row_step_mono.
Qed.

Lemma rows_update (i : string) (change : Post → Post) (l : list Post) :
  (∀ q, id (change q) = id q ∧ scheduled_for (change q) = scheduled_for q ∧
        selectedPages (change q) = selectedPages q ∧
        (status (change q) = published ∨ status (change q) = failed)) →
  Forall2 (row_step [i]) l (update_rows i change l).
Proof.
  intros Hch. unfold update_rows. induction l as [|q l IH]; cbn; constructor; [|done].
  destruct (String.eqb_spec (id q) i) as [Heq|Hne]; [|apply row_step_refl].
  destruct (Hch q) as (Hi & Hs & Hp & Hst).
  unfold row_step. repeat split; try done. right. split; [|done].
  rewrite Heq. by apply list_elem_of_singleton.
Qed.

Lemma mark_published_change (now : Z) (q : Post) :
  id (mark_published now q) = id q ∧
  scheduled_for (mark_published now q) = scheduled_for q ∧
  selectedPages (mark_published now q) = selectedPages q ∧
  (status (mark_published now q) = published ∨ status (mark_published now q) = failed).
Proof. cbn. auto. Qed.

Lemma mark_failed_change (now : Z) (msg : string) (q : Post) :
  id (mark_failed now msg q) = id q ∧
  scheduled_for (mark_failed now msg q) = scheduled_for q ∧
  selectedPages (mark_failed now msg q) = selectedPages q ∧
  (status (mark_failed now msg q) = published ∨ status (mark_failed now msg q) = failed).
Proof. cbn. auto. Qed.

(** Processing one post changes rows of that post only. *)
Lemma process_rows (p : Post) (w : Sched) :
  Forall2 (row_step [id p]) (posts w) (posts (st (processScheduledPost env p w))).
Proof.
  unfold processScheduledPost, publishPost, publishPost_issue, publishPost_settle,
    after_publish, on_failure, initializeAnalytics, store_update.
  destruct (publishPost_result env p) as [e|]; run_sch.
  - destruct (write env (CUpdateFailed _ _)); run_sch;
      [apply rows_update, mark_failed_change|apply rows_refl..].
  - destruct (write env (CUpdatePublished _)) eqn:Hw; run_sch.
    + destruct (selectedPages p), (write env (CInsertAnalytics (id p))); run_sch;
        apply rows_update, mark_published_change.
    + destruct (selectedPages p), (write env (CInsertAnalytics (id p))); run_sch;
        apply rows_refl.
    + destruct (write env (CUpdateFailed _ _)); run_sch;
        [apply rows_update, mark_failed_change|apply rows_refl..].
Qed.

Lemma for_each_rows (l : list Post) (w : Sched) :
  let r := for_each env l w in
  Forall2 (row_step (dispatched (evs r))) (posts w) (posts (st r)).
Proof.
  revert w. induction l as [|p l IH]; intros w.
  - cbn. apply rows_refl.
  - cbn [for_each]. unfold bind.
    pose proof (process_rows p w) as Hp.
    pose proof (process_frame env p w) as (Hd & _ & _).
    destruct (processScheduledPost env p w) as [[[]|e] w1 es1]; cbn [val st evs] in *.
    + specialize (IH w1). destruct (for_each env l w1) as [v w2 es2].
      cbn [val st evs] in *. rewrite dispatched_app, Hd.
      eapply rows_trans.
      * eapply rows_mono; [|exact Hp]. intros x Hx. apply elem_of_app. by left.
      * eapply rows_mono; [|exact IH]. intros x Hx. apply elem_of_app. by right.
    + by rewrite Hd.
Qed.

(** X8.  A tick never adds, removes or reorders rows and never touches a
    row's id, scheduled time or pages; a row is either left exactly as it
    was, or it belongs to a post the tick dispatched and is now 'published'
    or 'failed'.  The clock and the interval handle are not changed. *)
Theorem tick_changes_only_dispatched_rows (w : Sched) :
  let r := checkScheduledPosts env w in
  Forall2 (row_step (dispatched (evs r))) (posts w) (posts (st r)) ∧
  length (posts (st r)) = length (posts w) ∧
  clock (st r) = clock w ∧ intervalId (st r) = intervalId w.
Proof.
  cbv zeta.
  assert (Forall2 (row_step (dispatched (evs (checkScheduledPosts env w))))
            (posts w) (posts (st (checkScheduledPosts env w))) ∧
          clock (st (checkScheduledPosts env w)) = clock w ∧
          intervalId (st (checkScheduledPosts env w)) = intervalId w) as (Hr & Hc & Hi).
  { pose proof (checkScheduledPosts_run env w) as Hrun.
    destruct (select_error env) as [e|].
    - destruct Hrun as [-> _]. split; [apply rows_refl|done].
    - cbv zeta in Hrun. destruct Hrun as (-> & -> & _).
      split; [apply for_each_rows|].
      by destruct (for_each_dispatch env
                     (filter (λ p, is_due (clock w) p = true) (posts w)) w)
        as (? & ? & _). }
  split; [done|]. split; [|done].
  symmetry. by eapply Forall2_length.
Qed.

(** X9.  When the due-post query comes back with an error, the tick logs
    it and ends: it returns normally, publishes nothing, issues no write
    and leaves the store as it was. *)
Theorem failed_query_does_nothing (w : Sched) (e : thrown)
    (Hquery : select_error env = Some e) :
  let r := checkScheduledPosts env w in
  val r = Ret tt ∧ st r = w ∧
  evs r = [EvCall (CSelectDue (clock w)); EvLog LError "Error checking scheduled posts:"].
Proof.
  cbv zeta. split; [apply checkScheduledPosts_returns|].
  pose proof (checkScheduledPosts_run env w) as Hrun. by rewrite Hquery in Hrun.
Qed.

(** With the publish call resolving and the 'published' write refused, a
    post is processed without any row changing. *)
Lemma process_refused (p : Post) (w : Sched) :
  publishPost_result env p = None →
  write env (CUpdatePublished (id p)) = Refused →
  let r := processScheduledPost env p w in
  val r = Ret tt ∧ posts (st r) = posts w.
Proof.
  intros Hp Hw.
  unfold processScheduledPost, publishPost, publishPost_issue, publishPost_settle,
    after_publish, on_failure, initializeAnalytics, store_update.
  rewrite Hp. run_sch. rewrite Hw. run_sch.
  by destruct (selectedPages p), (write env (CInsertAnalytics (id p))); run_sch.
Qed.

Lemma for_each_refused (l : list Post) (w : Sched) :
  (∀ p, publishPost_result env p = None) →
  (∀ i, write env (CUpdatePublished i) = Refused) →
  let r := for_each env l w in
  val r = Ret tt ∧ posts (st r) = posts w.
Proof.
  intros Hp Hw. revert w. induction l as [|p l IH]; intros w; [done|].
  cbn [for_each]. unfold bind.
  destruct (process_refused p w (Hp p) (Hw (id p))) as [Hv Hposts].
  destruct (processScheduledPost env p w) as [v w1 es1]. cbn [val st evs] in *.
  subst v. specialize (IH w1).
  destruct (for_each env l w1) as [v2 w2 es2]. cbn [val st evs] in *.
  destruct IH as [-> ->]. done.
Qed.

Lemma is_due_later (now dt : Z) (p : Post) :
  0 <= dt → is_due now p = true → is_due (now + dt) p = true.
Proof.
  intros Hdt (Hs & t & Ht & Hle)%is_due_spec. apply is_due_spec.
  split; [done|]. exists t. split; [done|lia].
Qed.

(** X10.  The result of the status write is not looked at: when the publish
    calls resolve but the store refuses the 'published' writes (it resolves
    them with an error), a tick publishes every due post and leaves every
    row as it was, so each of these posts is published again by the next
    tick. *)
Theorem refused_status_write_republishes (w : Sched) (dt : Z)
    (Hquery : select_error env = None)
    (Hpublish : ∀ p, publishPost_result env p = None)
    (Hrefused : ∀ i, write env (CUpdatePublished i) = Refused)
    (Hdt : 0 <= dt) :
  let r := checkScheduledPosts env w in
  let r' := checkScheduledPosts env (later dt (st r)) in
  posts (st r) = posts w ∧
  dispatched (evs r) = id <$> filter (λ p, is_due (clock w) p = true) (posts w) ∧
  ∀ i, i ∈ dispatched (evs r) → i ∈ dispatched (evs r').
Proof.
  cbv zeta.
  assert (∀ w0, posts (st (checkScheduledPosts env w0)) = posts w0 ∧
                clock (st (checkScheduledPosts env w0)) = clock w0 ∧
                dispatched (evs (checkScheduledPosts env w0)) =
                  id <$> filter (λ p, is_due (clock w0) p = true) (posts w0)) as Htick.
  { intros w0. pose proof (checkScheduledPosts_run env w0) as Hrun.
    rewrite Hquery in Hrun. cbv zeta in Hrun. destruct Hrun as (-> & -> & _).
    destruct (for_each_refused (filter (λ p, is_due (clock w0) p = true) (posts w0)) w0
                Hpublish Hrefused) as [Hv Hposts].
    destruct (for_each_dispatch env
                (filter (λ p, is_due (clock w0) p = true) (posts w0)) w0)
      as (Hc & _ & _ & Hall).
    split; [done|]. split; [done|]. by apply Hall. }
  destruct (Htick w) as (Hposts & Hclock & Hd).
  destruct (Htick (later dt (st (checkScheduledPosts env w)))) as (_ & _ & Hd').
  split; [done|]. split; [done|].
  intros i Hi. rewrite Hd'. rewrite Hd in Hi. unfold later; cbn [posts clock].
  rewrite Hposts, Hclock.
  apply list_elem_of_fmap in Hi as (p & -> & Hp).
  apply list_elem_of_fmap_2.
  apply list_elem_of_filter in Hp as [Hdue Hp].
  apply list_elem_of_filter. split; [by apply is_due_later|done].
Qed.

(** X11.  Analytics are best effort: when the publish call resolves and the
    'published' write is applied, the post ends 'published' and the method
    returns normally whatever the analytics step does; no 'failed' write is
    issued.  On a post without the property selectedPages, as the due-post
    query returns them, the step fails before any insert is issued and
    only logs; with the property there, the insert is issued, and it may
    be applied, be refused or reject. *)
Theorem analytics_failure_is_swallowed (post : Post) (w : Sched)
    (Hpublish : publishPost_result env post = None)
    (Hwrite : write env (CUpdatePublished (id post)) = Applied) :
  let r := processScheduledPost env post w in
  val r = Ret tt ∧
  posts (st r) = update_rows (id post) (mark_published (clock w)) (posts w) ∧
  calls (evs r) =
    ([CPublishPost (id post); CUpdatePublished (id post)] ++
     match selectedPages post with
     | Some _ => [CInsertAnalytics (id post)]
     | None => []
     end)%list ∧
  (selectedPages post = None →
     evs r = [EvCall (CPublishPost (id post)); EvCall (CUpdatePublished (id post));
              EvLog LError ("Failed to initialize analytics for post " +:+ id post +:+ ":")]).
Proof.
  unfold processScheduledPost, publishPost, publishPost_issue, publishPost_settle,
    after_publish, on_failure, initializeAnalytics, store_update.
  rewrite Hpublish. run_sch. rewrite Hwrite. run_sch.
  destruct (selectedPages post); run_sch;
    [destruct (write env (CInsertAnalytics (id post))); run_sch|];
    autorewrite with trace; done.
Qed.

(** X12.  A 'published' write that rejects turns a post that was published
    into a failed one: the rejection is caught by the method's own catch
    block, the row is written 'failed' with the store's error message, and
    the analytics are not initialised. *)
Theorem rejected_published_write_marks_failed (post : Post) (w : Sched) (e : thrown)
    (Hpublish : publishPost_result env post = None)
    (Hreject : write env (CUpdatePublished (id post)) = Rejected e)
    (Hfailed : write env (CUpdateFailed (id post) (message_of e)) = Applied) :
  let r := processScheduledPost env post w in
  val r = Ret tt ∧
  posts (st r) =
    update_rows (id post) (mark_failed (clock w) (message_of e)) (posts w) ∧
  calls (evs r) = [CPublishPost (id post); CUpdatePublished (id post);
                   CUpdateFailed (id post) (message_of e)].
Proof.
  unfold processScheduledPost, publishPost, publishPost_issue, publishPost_settle,
    after_publish, on_failure, initializeAnalytics, store_update.
  rewrite Hpublish. run_sch. rewrite Hreject. run_sch. rewrite Hfailed. run_sch.
  by autorewrite with trace.
Qed.
End SchedulerMore.

Lemma failed_query_does_nothing_witness :
  let r := Scheduler.checkScheduledPosts Scenario.query_fails Scenario.boot in
  val r = Ret tt ∧ st r = Scenario.boot ∧
  evs r = [EvCall (CSelectDue 61000); EvLog LError "Error checking scheduled posts:"].
Proof.
  exact (failed_query_does_nothing Scenario.query_fails Scenario.boot
           (ErrorObj "connection lost") eq_refl).
Defined.

Lemma refused_status_write_republishes_witness :
  let r := Scheduler.checkScheduledPosts Scenario.store_refuses Scenario.boot in
  let r' := Scheduler.checkScheduledPosts Scenario.store_refuses
              (SchedulerRows.later 60000 (st r)) in
  Scheduler.posts (st r) = [Scenario.post_a; Scenario.post_b] ∧
  Scheduler.dispatched (evs r) = ["a"; "b"] ∧
  ∀ i, i ∈ Scheduler.dispatched (evs r) → i ∈ Scheduler.dispatched (evs r').
Proof.
  exact (refused_status_write_republishes Scenario.store_refuses Scenario.boot 60000
           eq_refl (fun _ => eq_refl) (fun _ => eq_refl) ltac:(lia)).
Defined.

Lemma analytics_failure_is_swallowed_witness :
  let r := Scheduler.processScheduledPost Scenario.healthy Scenario.post_a Scenario.boot in
  val r = Ret tt ∧
  Scheduler.posts (st r) =
    Scheduler.update_rows "a" (Scheduler.mark_published 61000) [Scenario.post_a; Scenario.post_b] ∧
  calls (evs r) = [CPublishPost "a"; CUpdatePublished "a"] ∧
  evs r = [EvCall (CPublishPost "a"); EvCall (CUpdatePublished "a");
           EvLog LError "Failed to initialize analytics for post a:"].
Proof.
  pose proof (analytics_failure_is_swallowed Scenario.healthy Scenario.post_a
                Scenario.boot eq_refl eq_refl) as (Hv & Hp & Hc & He).
  exact (conj Hv (conj Hp (conj Hc (He eq_refl)))).
Defined.

Lemma rejected_published_write_marks_failed_witness :
  let r := Scheduler.processScheduledPost Scenario.published_write_rejects Scenario.post_a
             Scenario.boot in
  val r = Ret tt ∧
  Scheduler.posts (st r) =
    Scheduler.update_rows "a" (Scheduler.mark_failed 61000 "fetch failed")
      [Scenario.post_a; Scenario.post_b] ∧
  calls (evs r) = [CPublishPost "a"; CUpdatePublished "a"; CUpdateFailed "a" "fetch failed"].
Proof.
  exact (rejected_published_write_marks_failed Scenario.published_write_rejects
           Scenario.post_a Scenario.boot (ErrorObj "fetch failed") eq_refl eq_refl eq_refl).
Defined.

(* ===================================================================== *)
(** * Further properties of the retry loop *)
(* ===================================================================== *)

Section RetryMore.
Context {W T : Type}.
Variable op : W → outcome T * W.

Lemma loop_all_fail (attempts : nat) (after : M (W * list (outcome T)) T)
    (Hfail : ∀ w, is_throw (op w).1 = true) :
  ∀ (k i : nat) (w : W) (h0 : list (outcome T)),
    (i + k = attempts)%nat → (1 <= k)%nat →
    let r := Retry.loop after (Retry.recorded op) attempts k i (w, h0) in
    is_throw (val r) = true ∧
    last (st r).2 = Some (val r) ∧
    length (st r).2 = (length h0 + k)%nat ∧
    sleeps (evs r) = replicate (k - 1) Retry.retryDelay.
Proof.
  induction k as [|k IH]; intros i w h0 Hik Hk; [lia|].
  cbn [Retry.loop]. unfold try_catch. rewrite recorded_run.
  pose proof (Hfail w) as Hw.
  destruct (op w) as [[a|e] w'] eqn:Hop; cbn [val st evs fst snd] in *; [done|].
  destruct (Nat.eqb_spec i (attempts - 1)) as [Hlast|Hmore].
  - run_eff. assert (k = 0%nat) as -> by lia.
    split; [done|]. split; [by rewrite last_snoc|].
    split; [rewrite length_app; cbn; lia|done].
  - pose proof (IH (S i) w' (h0 ++ [Throw e])%list ltac:(lia) ltac:(lia)) as H.
    run_eff.
    destruct (Retry.loop after (Retry.recorded op) attempts k (S i)
                (w', (h0 ++ [Throw e])%list)) as [v [w2 h2] es2].
    cbn [val st evs fst snd] in *.
    destruct H as (Hv & Hl & Hlen & Hsl).
    split; [done|]. split; [done|].
    split; [rewrite Hlen, length_app; cbn; lia|].
    autorewrite with trace. rewrite Hsl.
    destruct k as [|k]; [lia|]. cbn. by rewrite Nat.sub_0_r.
Qed.

(** X13.  An operation that fails every time is invoked exactly maxAttempts
    times, with maxAttempts - 1 sleeps of the retry delay, and retry then
    throws the error of the last invocation.  With zero attempts the
    operation is not invoked at all and retry throws 'Retry failed'. *)
Theorem retry_exhausts_on_persistent_failure (attempts : nat) (w : W)
    (Hfail : ∀ w, is_throw (op w).1 = true) :
  let r := Retry.retry (Retry.recorded op) attempts (w, []) in
  (attempts = 0%nat →
     val r = Throw (ErrorObj "Retry failed") ∧ st r = (w, []) ∧ evs r = []) ∧
  ((1 <= attempts)%nat →
     is_throw (val r) = true ∧
     last (st r).2 = Some (val r) ∧
     length (st r).2 = attempts ∧
     sleeps (evs r) = replicate (attempts - 1) Retry.retryDelay).
Proof.
  cbv zeta. split.
  - by intros ->.
  - intros Hpos. unfold Retry.retry.
    exact (loop_all_fail attempts (throw (ErrorObj "Retry failed")) Hfail
             attempts 0%nat w [] ltac:(lia) Hpos).
Qed.
End RetryMore.

Lemma retry_exhausts_on_persistent_failure_witness :
  let r := Retry.retry (Retry.recorded Scenario.always_fails) 3 (0%nat, []) in
  is_throw (val r) = true ∧
  last (st r).2 = Some (val r) ∧
  length (st r).2 = 3%nat ∧
  sleeps (evs r) = [Retry.retryDelay; Retry.retryDelay].
Proof.
  exact (proj2 (retry_exhausts_on_persistent_failure Scenario.always_fails 3 0%nat
                  (fun _ => eq_refl)) ltac:(lia)).
Defined.

(* ===================================================================== *)
(** * Further properties of page navigation *)
(* ===================================================================== *)

Section PageAccessMore.
Import Browser Script.
Variable env : Env.

Ltac run_pg :=
  unfold query, page_call, call, wait; run_eff.

(** X14.  The script's retry never hands back undefined by falling out of
    its loop: whatever the operation does, it ends with a value of the
    operation or with an error. *)
Theorem script_retry_never_undefined {T : Type} (fn : M Session T) (s : Session) :
  val (retry fn s) ≠ Ret None.
Proof.
  unfold retry.
  assert (∀ (k i : nat) (s0 : Session),
            (i + k = Retry.retryAttempts)%nat → (1 <= k)%nat →
            val (retry_loop fn k i s0) ≠ Ret None) as Hloop.
  { induction k as [|k IH]; intros i s0 Hik Hk; [lia|].
    cbn [retry_loop]. unfold try_catch, bind.
    destruct (fn s0) as [[a|e] s1 es1]; run_eff; [done|].
    destruct (Nat.eqb_spec i (Retry.retryAttempts - 1)) as [Hlast|Hmore]; run_eff; [done|].
    destruct e as [m|d|u]; unfold read_message; run_eff; try done;
      (specialize (IH (S i) s1 ltac:(lia) ltac:(unfold Retry.retryAttempts in *; lia));
       by destruct (retry_loop fn k (S i) s1) as [v s2 es2]). }
  apply Hloop; unfold Retry.retryAttempts; lia.
Qed.

(** One pass over the selectors stops at the first one that matches. *)
Lemma any_present_found (sels : list string) (s : Session) :
  page s = true →
  (∀ sel, sel ∈ sels → fails env (CQuery sel) = None) →
  (∃ sel, sel ∈ sels ∧ dom env sel = true) →
  let r := any_present env sels s in
  val r = Ret true ∧ st r = s ∧ sleeps (evs r) = [].
Proof.
  intros Hp. induction sels as [|sel sels IH]; intros Hok (x & Hx & Hdom).
  - by apply elem_of_nil in Hx.
  - cbn [any_present]. run_pg. rewrite Hp. run_eff.
    rewrite (Hok sel) by (by left). run_eff.
    destruct (dom env sel) eqn:Hd; run_eff; [done|].
    destruct IH as (Hv & Hst & Hsl).
    { intros sel' Hin. apply Hok. by right. }
    { exists x. split; [|done]. apply elem_of_cons in Hx as [->|Hx]; [congruence|done]. }
    destruct (any_present env sels s) as [v s' es]. cbn [val st evs] in *.
    subst. by autorewrite with trace.
Qed.

(** X15.  When the steps before the verification go through, the queries
    for the admin selectors do not throw and at least one admin-only
    control is present, navigateToPage returns true, leaves the session as
    it was and does not sleep the retry delay. *)
Theorem navigateToPage_succeeds_for_admin (pageId : string) (s : Session)
    (Hpage : page s = true)
    (Hgoto : fails env (CGoto (page_url pageId)) = None)
    (Hcookie : fails env (CQuery sel_cookie) = None)
    (Haccept : fails env (CClick sel_cookie_accept) = None)
    (Hnotfound : fails env (CQuery sel_not_found) = None)
    (Hfound : dom env sel_not_found = false)
    (Hqueries : ∀ sel, sel ∈ adminSelectors → fails env (CQuery sel) = None)
    (Hadmin : ∃ sel, sel ∈ adminSelectors ∧ dom env sel = true) :
  let r := navigateToPage env pageId s in
  val r = Ret true ∧ st r = s ∧ (Retry.retryDelay ∉ sleeps (evs r)).
Proof.
  cbv zeta.
  pose proof (any_present_found adminSelectors s Hpage Hqueries Hadmin) as Hany.
  assert (val (retry (verifyPageAdminAccess env) s) = Ret (Some true) ∧
          st (retry (verifyPageAdminAccess env) s) = s ∧
          sleeps (evs (retry (verifyPageAdminAccess env) s)) = []) as Hretry.
  { unfold retry, verifyPageAdminAccess. cbn [retry_loop Retry.retryAttempts].
    unfold try_catch, bind.
    destruct (any_present env adminSelectors s) as [v0 s0 es0].
    cbn [val st evs] in Hany. destruct Hany as (-> & -> & Hsl). run_eff.
    by rewrite app_nil_r. }
  clear Hany. unfold navigateToPage. run_pg.
  rewrite Hpage. run_eff. rewrite Hgoto. run_eff. rewrite Hpage. run_eff.
  rewrite Hcookie. run_eff.
  destruct (dom env sel_cookie); run_eff; rewrite ?Hpage; run_eff;
    rewrite ?Haccept; run_eff; rewrite ?Hpage; run_eff;
    rewrite Hnotfound; run_eff; rewrite Hfound; run_eff;
    destruct (retry (verifyPageAdminAccess env) s) as [v0 s0 es0];
    cbn [val st evs] in Hretry; destruct Hretry as (-> & -> & Hsl); run_eff;
    (split; [done|]); (split; [done|]);
    cbn [delays]; autorewrite with trace; rewrite Hsl; cbn [app];
    rewrite ?elem_of_cons, elem_of_nil; unfold Retry.retryDelay; intuition discriminate.
Qed.
End PageAccessMore.

Lemma navigateToPage_succeeds_for_admin_witness :
  let r := Script.navigateToPage Scenario.admin_page "1234" Scenario.logged_in in
  val r = Ret true ∧ st r = Scenario.logged_in ∧ (Retry.retryDelay ∉ sleeps (evs r)).
Proof.
  apply (navigateToPage_succeeds_for_admin Scenario.admin_page "1234" Scenario.logged_in);
    try reflexivity.
  exists "[data-testid=page_admin_panel]". split; [compute_done|reflexivity].
Defined.

(* ===================================================================== *)
(** * Further properties of a publish attempt *)
(* ===================================================================== *)

Section PublishAttemptMore.
Import Browser Automation AutomationEnv.
Variable env : Env.

Ltac run_au :=
  run_eff; unfold set_files; cbn [files page browser isLoggedIn];
  repeat (match goal with
          | H : page ?s = _ |- context [page ?s] => rewrite H
          | H : isLoggedIn ?s = _ |- context [isLoggedIn ?s] => rewrite H
          | H : browser ?s = _ |- context [browser ?s] => rewrite H
          end; run_eff).

(** X16.  createPost refuses before it touches the page: without a login,
    or without a browser page, it throws ('Not logged in', else 'Browser
    page not initialized'), makes no call on the page, the network or the
    disk, and leaves the session as it was. *)
Theorem createPost_requires_session (pageId : string) (options : PostOptions) (s : Session)
    (Hnot : isLoggedIn s && page s = false) :
  let r := createPost env pageId options s in
  val r = Throw (ErrorObj (if isLoggedIn s then "Browser page not initialized"
                           else "Not logged in")) ∧
  st r = s ∧ calls (evs r) = [].
Proof.
  unfold createPost, require_page.
  destruct (isLoggedIn s) eqn:Hl; run_au.
  - destruct (page s) eqn:Hp; [done|]. by run_au.
  - done.
Qed.

Lemma only_ret {A} (path : string) (a : A) : touches_only path (ret a).
Proof. by intros s. Qed.
Lemma only_throw {A} (path : string) (e : thrown) : touches_only path (@throw Session A e).
Proof. by intros s. Qed.
Lemma only_log (path : string) (lvl : level) (msg : string) : touches_only path (log lvl msg).
Proof. by intros s. Qed.
Lemma only_get (path : string) : touches_only path get.
Proof. by intros s. Qed.

Lemma only_bind {A B} (path : string) (m : M Session A) (k : A → M Session B) :
  touches_only path m → (∀ a, touches_only path (k a)) → touches_only path (bind m k).
Proof.
  intros Hm Hk s. unfold bind. specialize (Hm s).
  destruct (m s) as [[a|e] s1 es1]; cbn [val st evs] in *; [|done].
  specialize (Hk a s1). destruct (k a s1) as [v s2 es2]. cbn [val st evs] in *.
  by rewrite Hk.
Qed.

Lemma only_try_catch {A} (path : string) (m : M Session A) (h : thrown → M Session A) :
  touches_only path m → (∀ e, touches_only path (h e)) → touches_only path (try_catch m h).
Proof.
  intros Hm Hh s. unfold try_catch. specialize (Hm s).
  destruct (m s) as [[a|e] s1 es1]; cbn [val st evs] in *; [done|].
  specialize (Hh e s1). destruct (h e s1) as [v s2 es2]. cbn [val st evs] in *.
  by rewrite Hh.
Qed.

Lemma only_call (path : string) (c : ext_call) : touches_only path (call env c).
Proof. intros s. unfold call. run_eff. by destruct (fails env c). Qed.

Lemma only_page_call (path : string) (c : ext_call) : touches_only path (page_call env c).
Proof.
  unfold page_call. apply only_bind; [apply only_get|].
  intros s. destruct (page s); [apply only_call|apply only_throw].
Qed.

Lemma only_writeFile (path : string) : touches_only path (writeFile env path).
Proof.
  intros s. unfold writeFile, call. run_eff.
  destruct (fails env (CWriteFile path)); run_eff; [done|].
  unfold set_files; cbn [files]. apply set_eq. intros x.
  rewrite !elem_of_difference, elem_of_union, elem_of_singleton. tauto.
Qed.

Lemma only_unlink (path : string) : touches_only path (unlink env path).
Proof.
  intros s. unfold unlink, call. run_eff.
  destruct (fails env (CUnlink path)); run_eff; [done|].
  destruct (decide (path ∈ files s)); run_eff; [|done].
  unfold set_files; cbn [files]. apply set_eq. intros x.
  rewrite !elem_of_difference. tauto.
Qed.

Ltac confine :=
  repeat first
    [ assumption
    | apply only_writeFile | apply only_unlink
    | apply only_page_call | apply only_call
    | apply only_ret | apply only_throw | apply only_log | apply only_get
    | apply only_try_catch; [|intros ?]
    | apply only_bind; [|intros ?]
    | match goal with
      | |- touches_only _ (if ?b then _ else _) => destruct b
      | |- touches_only _ (match ?o with Some _ => _ | None => _ end) => destruct o
      end ].

(** X17.  The only file a publish attempt can create or remove is its
    temporary image file: on every exit path of createPost every other
    file on the disk is there exactly if it was there before. *)
Theorem createPost_touches_only_temp_file
    (pageId : string) (options : PostOptions) (s : Session) (path : string) :
  path ≠ tempPath env →
  (path ∈ files (st (createPost env pageId options s)) ↔ path ∈ files s).
Proof.
  intros Hne.
  assert (touches_only (tempPath env) (createPost env pageId options)) as H.
  { unfold createPost, typeWithDelay, addFirstComment, uploadImage, schedulePost,
      require_page, query.
    confine. }
  specialize (H s).
  assert (∀ X : gset string, path ∈ X ↔ path ∈ X ∖ {[tempPath env]}) as Hx.
  { intros X. rewrite elem_of_difference, elem_of_singleton. tauto. }
  by rewrite (Hx (files (st _))), (Hx (files s)), H.
Qed.

Lemma disk_ret {A} (a : A) : leaves_disk (ret a).
Proof. intros s. split; [done|constructor]. Qed.
Lemma disk_throw {A} (e : thrown) : leaves_disk (@throw Session A e).
Proof. intros s. split; [done|constructor]. Qed.
Lemma disk_log (lvl : level) (msg : string) : leaves_disk (log lvl msg).
Proof. intros s. split; [done|constructor]. Qed.
Lemma disk_get : leaves_disk get.
Proof. intros s. split; [done|constructor]. Qed.

Lemma disk_bind {A B} (m : M Session A) (k : A → M Session B) :
  leaves_disk m → (∀ a, leaves_disk (k a)) → leaves_disk (bind m k).
Proof.
  intros Hm Hk s. unfold bind. specialize (Hm s).
  destruct (m s) as [[a|e] s1 es1]; cbn [val st evs] in *; [|done].
  specialize (Hk a s1). destruct (k a s1) as [v s2 es2]. cbn [val st evs] in *.
  destruct Hm as [Hf1 Hc1], Hk as [Hf2 Hc2].
  split; [congruence|]. rewrite calls_app. by apply Forall_app.
Qed.

Lemma disk_try_catch {A} (m : M Session A) (h : thrown → M Session A) :
  leaves_disk m → (∀ e, leaves_disk (h e)) → leaves_disk (try_catch m h).
Proof.
  intros Hm Hh s. unfold try_catch. specialize (Hm s).
  destruct (m s) as [[a|e] s1 es1]; cbn [val st evs] in *; [done|].
  specialize (Hh e s1). destruct (h e s1) as [v s2 es2]. cbn [val st evs] in *.
  destruct Hm as [Hf1 Hc1], Hh as [Hf2 Hc2].
  split; [congruence|]. rewrite calls_app. by apply Forall_app.
Qed.

Lemma disk_call (c : ext_call) : is_file_call c = false → leaves_disk (call env c).
Proof.
  intros Hc s. unfold call. run_eff.
  destruct (fails env c); run_eff; (split; [done|]);
    autorewrite with trace; by repeat constructor.
Qed.

Lemma disk_page_call (c : ext_call) : is_file_call c = false → leaves_disk (page_call env c).
Proof.
  intros Hc. unfold page_call. apply disk_bind; [apply disk_get|].
  intros s. destruct (page s); [by apply disk_call|apply disk_throw].
Qed.

Ltac disk :=
  repeat first
    [ assumption
    | apply disk_page_call; reflexivity
    | apply disk_call; reflexivity
    | apply disk_ret | apply disk_throw | apply disk_log | apply disk_get
    | apply disk_try_catch; [|intros ?]
    | apply disk_bind; [|intros ?]
    | match goal with
      | |- leaves_disk (if ?b then _ else _) => destruct b
      | |- leaves_disk (match ?o with Some _ => _ | None => _ end) => destruct o
      end ].

(** X18.  A post without an image (no image URL, or the empty string) is
    published without any use of the network for a file or of the local
    disk: on every exit path createPost has made no fetch, no file write,
    no upload and no unlink, and the files on disk are as they were. *)
Theorem createPost_without_image_leaves_disk
    (pageId : string) (options : PostOptions) (s : Session)
    (Hnone : given (imageUrl options) = None) :
  let r := createPost env pageId options s in
  files (st r) = files s ∧
  Forall (λ c, is_file_call c = false) (calls (evs r)).
Proof.
  cbv zeta.
  assert (leaves_disk (createPost env pageId options)) as H; [|by apply H].
  unfold createPost. rewrite Hnone.
  unfold typeWithDelay, addFirstComment, schedulePost, require_page.
  disk.
Qed.

(** X19.  cleanup can be called again: without a browser it does nothing;
    after a close that succeeded a second cleanup does nothing; and when
    the close rejects, cleanup rethrows the error and leaves the session
    as it was, browser included, so that a later cleanup tries again. *)
Theorem cleanup_can_be_repeated (s : Session) :
  let r := cleanup env s in
  (browser s = false → val r = Ret tt ∧ st r = s ∧ evs r = []) ∧
  (browser s = true → fails env CBrowserClose = None →
     let r' := cleanup env (st r) in
     val r' = Ret tt ∧ st r' = st r ∧ evs r' = []) ∧
  (browser s = true → ∀ e, fails env CBrowserClose = Some e →
     val r = Throw e ∧ st r = s ∧ calls (evs r) = [CBrowserClose]).
Proof.
  cbv zeta. unfold cleanup, call. split; [|split].
  - intros Hb. by run_au.
  - intros Hb Hc. run_au. rewrite Hc. by run_au.
  - intros Hb e Hc. run_au. rewrite Hc. run_au. by autorewrite with trace.
Qed.

Lemma join_one_comma (x : string) (l : list string) :
  l ≠ [] → join ", " (x :: l) = x +:+ ", " +:+ join ", " l.
Proof. by destruct l. Qed.

(** X20.  validateEnvironment accepts exactly the environments in which
    both FACEBOOK_EMAIL and FACEBOOK_PASSWORD are set to a non-empty
    string; otherwise it throws, and its message names the variables that
    are missing or empty, in the order email, password. *)
Theorem validateEnvironment_accepts (penv : gmap string string) (s : Session) :
  let r := validateEnvironment penv s in
  st r = s ∧ evs r = [] ∧
  (val r = Ret tt ↔
     ∀ v, v ∈ requiredVars → ∃ x, penv !! v = Some x ∧ x ≠ "") ∧
  (unset penv "FACEBOOK_EMAIL" = true → unset penv "FACEBOOK_PASSWORD" = false →
     val r = Throw (ErrorObj "Missing required environment variables: FACEBOOK_EMAIL")) ∧
  (unset penv "FACEBOOK_EMAIL" = false → unset penv "FACEBOOK_PASSWORD" = true →
     val r = Throw (ErrorObj "Missing required environment variables: FACEBOOK_PASSWORD")) ∧
  (unset penv "FACEBOOK_EMAIL" = true → unset penv "FACEBOOK_PASSWORD" = true →
     val r = Throw (ErrorObj
       "Missing required environment variables: FACEBOOK_EMAIL, FACEBOOK_PASSWORD")).
Proof.
  cbv zeta.
  assert (∀ v, unset penv v = false ↔ ∃ x, penv !! v = Some x ∧ x ≠ "") as Hset.
  { intros v. unfold unset. destruct (penv !! v) as [x|].
    - destruct (String.eqb_spec x ""); split; try done.
      + by intros (x' & [= <-] & ?).
      + intros _. by exists x.
    - split; [done|]. by intros (x & ? & _). }
  unfold validateEnvironment, requiredVars.
  rewrite !filter_cons, filter_nil.
  destruct (unset penv "FACEBOOK_EMAIL") eqn:He, (unset penv "FACEBOOK_PASSWORD") eqn:Hp;
    repeat case_decide; try done; cbn [length Nat.ltb Nat.leb]; run_eff;
    (split; [done|]); (split; [done|]);
    (split; [|repeat split; intros; first [discriminate|reflexivity]]).
  - split; [intros [=]|]. intros Hall. specialize (Hall "FACEBOOK_EMAIL" ltac:(by left)).
    apply Hset in Hall. congruence.
  - split; [intros [=]|]. intros Hall. specialize (Hall "FACEBOOK_EMAIL" ltac:(by left)).
    apply Hset in Hall. congruence.
  - split; [intros [=]|]. intros Hall.
    specialize (Hall "FACEBOOK_PASSWORD" ltac:(right; by left)).
    apply Hset in Hall. congruence.
  - split; [|done]. intros _ v Hv. apply Hset.
    apply elem_of_cons in Hv as [->|Hv]; [done|].
    apply elem_of_cons in Hv as [->|Hv]; [done|]. by apply elem_of_nil in Hv.
Qed.
End PublishAttemptMore.

Lemma createPost_requires_session_witness :
  let r := Automation.createPost Scenario.composer_page "1234" Scenario.hello_with_image
             Scenario.logged_out in
  val r = Throw (ErrorObj "Not logged in") ∧ st r = Scenario.logged_out ∧ calls (evs r) = [].
Proof.
  exact (createPost_requires_session Scenario.composer_page "1234" Scenario.hello_with_image
           Scenario.logged_out eq_refl).
Defined.

Lemma createPost_touches_only_temp_file_witness :
  "/app/notes.txt" ∈
    Browser.files (st (Automation.createPost Scenario.upload_rejects "1234"
                         Scenario.hello_with_image Scenario.with_notes)) ↔
  "/app/notes.txt" ∈ Browser.files Scenario.with_notes.
Proof.
  exact (createPost_touches_only_temp_file Scenario.upload_rejects "1234"
           Scenario.hello_with_image Scenario.with_notes "/app/notes.txt"
           ltac:(vm_compute; discriminate)).
Defined.

Lemma createPost_without_image_leaves_disk_witness :
  let r := Automation.createPost Scenario.composer_page "1234" Scenario.hello_text_only
             Scenario.with_notes in
  Browser.files (st r) = Browser.files Scenario.with_notes ∧
  Forall (λ c, AutomationEnv.is_file_call c = false) (calls (evs r)).
Proof.
  exact (createPost_without_image_leaves_disk Scenario.composer_page "1234"
           Scenario.hello_text_only Scenario.with_notes eq_refl).
Defined.

Lemma cleanup_can_be_repeated_witness :
  (let r := Automation.cleanup Scenario.composer_page Scenario.logged_in in
   let r' := Automation.cleanup Scenario.composer_page (st r) in
   val r' = Ret tt ∧ st r' = st r ∧ evs r' = []) ∧
  (let r := Automation.cleanup Scenario.close_rejects Scenario.logged_in in
   val r = Throw (ErrorObj "Target closed") ∧ st r = Scenario.logged_in ∧
   calls (evs r) = [CBrowserClose]).
Proof.
  split.
  - exact (proj1 (proj2 (cleanup_can_be_repeated Scenario.composer_page Scenario.logged_in))
             eq_refl eq_refl).
  - exact (proj2 (proj2 (cleanup_can_be_repeated Scenario.close_rejects Scenario.logged_in))
             eq_refl (ErrorObj "Target closed") eq_refl).
Defined.

Lemma validateEnvironment_accepts_witness :
  val (AutomationEnv.validateEnvironment Scenario.credentials Scenario.logged_out) = Ret tt ∧
  val (AutomationEnv.validateEnvironment Scenario.password_empty Scenario.logged_out) =
    Throw (ErrorObj "Missing required environment variables: FACEBOOK_PASSWORD").
Proof.
  split.
  - apply (validateEnvironment_accepts Scenario.credentials Scenario.logged_out).
    intros v Hv.
    apply elem_of_cons in Hv as [->|Hv]; [by eexists|].
    apply elem_of_cons in Hv as [->|Hv]; [by eexists|].
    by apply elem_of_nil in Hv.
  - apply (validateEnvironment_accepts Scenario.password_empty Scenario.logged_out);
      vm_compute; reflexivity.
Defined.
